(** * Newick parsing and ASCII rendering of phylogenetic trees

    A shallow embedding of [parseNewick] and [renderTreeAscii] from
    [frontend/src/app/page.tsx], together with the properties that the
    specification states about them.

    JavaScript strings are sequences of UTF-16 code units and JavaScript
    numbers are IEEE 754 binary64 values; both are modelled as such. *)

From Stdlib Require Import List ZArith NArith Lia Bool Ascii String QArith Qabs.
From Stdlib Require Import SpecFloat.
From Stdlib Require DecimalFacts DecimalPos DecimalN.
From Equations Require Import Equations.
Import ListNotations.

Local Open Scope Z_scope.

(* ===================================================================== *)
(** * JavaScript strings *)
(* ===================================================================== *)

Module JS.

(** A UTF-16 code unit. *)
Definition char : Type := N.

(** A JavaScript string value. *)
Definition jsstring : Type := list char.

Definition ch (a : ascii) : char := N_of_ascii a.

(** An ASCII literal as a JavaScript string. *)
Definition js (s : string) : jsstring := List.map ch (list_ascii_of_string s).

Definition LPAREN : char := ch "(".
Definition RPAREN : char := ch ")".
Definition COMMA : char := ch ",".
Definition COLON : char := ch ":".
Definition SEMICOLON : char := ch ";".
Definition NEWLINE : char := 10%N.

(** ECMAScript [WhiteSpace] and [LineTerminator] code points, the set
    that [String.prototype.trim] and [parseFloat] strip. *)
Definition isWhiteSpace (c : char) : bool :=
  ((9 <=? c) && (c <=? 13) || (c =? 32) || (c =? 160) || (c =? 5760)
   || (8192 <=? c) && (c <=? 8202)
   || (c =? 8232) || (c =? 8233) || (c =? 8239) || (c =? 8287)
   || (c =? 12288) || (c =? 65279))%N.

Fixpoint trimStart (s : jsstring) : jsstring :=
  match s with
  | c :: rest => if isWhiteSpace c then trimStart rest else s
  | [] => []
  end.

Definition trimEnd (s : jsstring) : jsstring := rev (trimStart (rev s)).

(** [s.trim()] *)
Definition trim (s : jsstring) : jsstring := trimEnd (trimStart s).

Definition nonEmptyList {A : Type} (l : list A) : bool :=
  match l with [] => false | _ :: _ => true end.

(** Truthiness of a string: only the empty string is falsy. *)
Definition nonEmpty (s : jsstring) : bool :=
  match s with [] => false | _ :: _ => true end.

(** [a || b] on strings. *)
Definition strOr (a b : jsstring) : jsstring := if nonEmpty a then a else b.

(** [s.startsWith(c)] for a one-character search string. *)
Definition startsWith (c : char) (s : jsstring) : bool :=
  match s with
  | c' :: _ => (c' =? c)%N
  | [] => false
  end.

Fixpoint indexOfFrom (c : char) (s : jsstring) (i : Z) : Z :=
  match s with
  | [] => -1
  | c' :: rest => if (c' =? c)%N then i else indexOfFrom c rest (i + 1)
  end.

(** [s.indexOf(c)]: the first index of [c], or -1. *)
Definition indexOf (c : char) (s : jsstring) : Z := indexOfFrom c s 0.

(** [s.substring(a, b)]: arguments below 0 count as 0, arguments beyond
    the length as the length, and the two are swapped when [a > b]. *)
Definition substring (a b : Z) (s : jsstring) : jsstring :=
  let lo := Z.to_nat (Z.min a b) in
  let hi := Z.to_nat (Z.max a b) in
  firstn (hi - lo) (skipn lo s).

(** [s.substring(a)] *)
Definition substringFrom (a : Z) (s : jsstring) : jsstring :=
  skipn (Z.to_nat a) s.

(** [s.replace(/;$/, '')]: without the [m] flag [$] matches at the end of
    the input only, so at most the last code unit is removed. *)
Definition replaceTrailingSemicolon (s : jsstring) : jsstring :=
  match rev s with
  | c :: r => if (c =? SEMICOLON)%N then rev r else s
  | [] => s
  end.

(* ===================================================================== *)
(** * JavaScript numbers *)
(* ===================================================================== *)

(** A Number value: IEEE 754 binary64 with one NaN. *)
Definition number : Type := spec_float.

Definition prec : Z := 53.
Definition emax : Z := 1024.

Definition zero : number := S754_zero false.

(** The Number 1. *)
Definition one : number := S754_finite false 4503599627370496 (-52).

Definition isNaN (x : number) : bool :=
  match x with S754_nan => true | _ => false end.

Definition isZero (x : number) : bool :=
  match x with S754_zero _ => true | _ => false end.

(** Truthiness of a number: [NaN], [+0] and [-0] are falsy. *)
Definition truthy (x : number) : bool := negb (isNaN x || isZero x).

(** [x || 0] *)
Definition orZero (x : number) : number := if truthy x then x else zero.

(** The Number value for the real number [m * 10^e] with [0 < m]
    (sign [neg]): round to nearest, ties to even; beyond the largest
    finite value the result is an infinity. *)
Definition roundDecimal (neg : bool) (m : Z) (e : Z) : number :=
  if 0 <=? e then
    binary_normalize prec emax (if neg then - (m * 10 ^ e) else m * 10 ^ e) 0 neg
  else
    let '(q, e', l) := SFdiv_core_binary prec emax m 0 (10 ^ (- e)) 0 in
    binary_round_aux prec emax neg q e' l.

Definition isDigit (c : char) : bool := ((48 <=? c) && (c <=? 57))%N.

Definition digitValue (c : char) : Z := Z.of_N c - 48.

(** The longest run of decimal digits at the front of [s], and the rest. *)
Fixpoint spanDigits (s : jsstring) : jsstring * jsstring :=
  match s with
  | c :: rest =>
      if isDigit c then let '(ds, r) := spanDigits rest in (c :: ds, r)
      else ([], s)
  | [] => ([], [])
  end.

(** The mathematical value of a run of decimal digits. *)
Definition digitsValue (ds : jsstring) : Z :=
  fold_left (fun acc c => 10 * acc + digitValue c) ds 0.

Fixpoint isPrefixOf (p s : jsstring) : bool :=
  match p, s with
  | [], _ => true
  | a :: p', b :: s' => (a =? b)%N && isPrefixOf p' s'
  | _ :: _, [] => false
  end.

(** The value of an optional [ExponentPart] at the front of [s]:
    [e] or [E], an optional sign, and at least one digit. *)
Definition exponentPart (s : jsstring) : Z :=
  match s with
  | c :: rest =>
      if ((c =? ch "e") || (c =? ch "E"))%N then
        match rest with
        | sg :: rest' =>
            if (sg =? ch "-")%N then - digitsValue (fst (spanDigits rest'))
            else if (sg =? ch "+")%N then digitsValue (fst (spanDigits rest'))
            else digitsValue (fst (spanDigits rest))
        | [] => 0
        end
      else 0
  | [] => 0
  end.

(** The longest prefix of [s] that is a [StrUnsignedDecimalLiteral],
    as a Number of sign [neg]; [NaN] when there is none. *)
Definition unsignedDecimal (neg : bool) (s : jsstring) : number :=
  if isPrefixOf (js "Infinity") s then S754_infinity neg
  else
    let '(ip, r1) := spanDigits s in
    let '(fp, r2) :=
      match r1 with
      | c :: r => if (c =? ch ".")%N then spanDigits r else ([], r1)
      | [] => ([], r1)
      end in
    match ip ++ fp with
    | [] => S754_nan
    | ds =>
        let m := digitsValue ds in
        if m =? 0 then S754_zero neg
        else roundDecimal neg m (exponentPart r2 - Z.of_nat (List.length fp))
    end.

(** [parseFloat(s)]: leading white space is skipped, then the longest
    prefix that is a [StrDecimalLiteral] is converted; anything after it
    is ignored. *)
Definition parseFloat (s : jsstring) : number :=
  match trimStart s with
  | c :: rest =>
      if (c =? ch "-")%N then unsignedDecimal true rest
      else if (c =? ch "+")%N then unsignedDecimal false rest
      else unsignedDecimal false (c :: rest)
  | [] => S754_nan
  end.

(** ** Printing numbers *)

Fixpoint uintChars (u : Decimal.uint) : jsstring :=
  match u with
  | Decimal.Nil => []
  | Decimal.D0 u => 48%N :: uintChars u
  | Decimal.D1 u => 49%N :: uintChars u
  | Decimal.D2 u => 50%N :: uintChars u
  | Decimal.D3 u => 51%N :: uintChars u
  | Decimal.D4 u => 52%N :: uintChars u
  | Decimal.D5 u => 53%N :: uintChars u
  | Decimal.D6 u => 54%N :: uintChars u
  | Decimal.D7 u => 55%N :: uintChars u
  | Decimal.D8 u => 56%N :: uintChars u
  | Decimal.D9 u => 57%N :: uintChars u
  end.

(** The decimal representation of a non-negative integer. *)
Definition decimalDigits (n : Z) : jsstring := uintChars (N.to_uint (Z.to_N n)).

Definition numDigits (n : Z) : Z := Z.of_nat (List.length (decimalDigits n)).

(** A finite positive Number [m * 2^e] as a fraction. *)
Definition numerator (m : positive) (e : Z) : Z := Z.pos m * 2 ^ Z.max e 0.
Definition denominator (e : Z) : Z := 2 ^ Z.max (- e) 0.

(** The integer [n] for which [n / 10^f] is closest to [m * 2^e], the
    larger one when there are two. *)
Definition scaledNearest (m : positive) (e : Z) (f : nat) : Z :=
  (2 * numerator m e * 10 ^ Z.of_nat f + denominator e) / (2 * denominator e).

(** The digits of [n] with a decimal point before the last [f] of them,
    padded with zeros on the left to [f + 1] digits. *)
Definition fixedDigits (n : Z) (f : nat) : jsstring :=
  let m := decimalDigits n in
  match f with
  | O => m
  | _ =>
      let m := repeat 48%N (S f - List.length m) ++ m in
      let k := List.length m in
      firstn (k - f) m ++ ch "." :: skipn (k - f) m
  end.

(** The candidate with [k] significant digits for the shortest decimal
    that converts back to [m * 2^e]: [(s, p)] stands for [s * 10^p]. *)
Definition shortestAt (m : positive) (e : Z) (k : Z) : option (Z * Z) :=
  let x := Z.pos m * 2 ^ e in
  let p := numDigits x - k in
  let lo := x / 10 ^ p in
  let hi := lo + 1 in
  let back s :=
    match binary_normalize prec emax (s * 10 ^ p) 0 false with
    | S754_finite false m' e' => (Z.pos m' =? Z.pos m) && (e' =? e)
    | _ => false
    end in
  let dlo := x - lo * 10 ^ p in
  let dhi := hi * 10 ^ p - x in
  match back lo, back hi with
  | true, true =>
      if dlo <? dhi then Some (lo, p)
      else if dhi <? dlo then Some (hi, p)
      else if Z.even lo then Some (lo, p) else Some (hi, p)
  | true, false => Some (lo, p)
  | false, true => Some (hi, p)
  | false, false => None
  end.

Fixpoint shortestFrom (m : positive) (e : Z) (k : Z) (tries : nat) : Z * Z :=
  match tries with
  | O => (Z.pos m * 2 ^ e, 0)
  | S tries' =>
      match shortestAt m e k with
      | Some sp => sp
      | None => shortestFrom m e (k + 1) tries'
      end
  end.

Fixpoint dropTrailingZeros (ds : jsstring) : jsstring :=
  match ds with
  | [] => []
  | d :: rest =>
      match dropTrailingZeros rest with
      | [] => if (d =? 48)%N then [] else [d]
      | rest' => d :: rest'
      end
  end.

(** [Number::toString] for a finite value of at least [10^21]: the
    shortest digits that convert back to the value, in exponential
    notation. *)
Definition largeToString (m : positive) (e : Z) : jsstring :=
  let '(s, p) := shortestFrom m e 1 17 in
  let n := numDigits s + p in
  match dropTrailingZeros (decimalDigits s) with
  | [] => js "0"
  | [d] => d :: js "e+" ++ decimalDigits (n - 1)
  | d :: ds => d :: ch "." :: ds ++ js "e+" ++ decimalDigits (n - 1)
  end.

(** [x.toFixed(f)] *)
Definition toFixed (x : number) (f : nat) : jsstring :=
  match x with
  | S754_nan => js "NaN"
  | S754_infinity s => if s then js "-Infinity" else js "Infinity"
  | S754_zero _ => fixedDigits 0 f
  | S754_finite s m e =>
      (if s then js "-" else [])
      ++ (if 10 ^ 21 * denominator e <=? numerator m e then largeToString m e
          else fixedDigits (scaledNearest m e f) f)
  end.

End JS.

Import JS.

(* ===================================================================== *)
(** * Tree nodes *)
(* ===================================================================== *)

#[local] Unset Elimination Schemes.

(** The object [{ children, name, length }] that the parser builds and the
    renderer reads. [name] is [null] in one place of the parser only. *)
Inductive TreeNode : Type :=
| Node (children : list TreeNode) (name : option jsstring) (length : number).
#[local] Set Elimination Schemes.

Definition node_children (t : TreeNode) : list TreeNode :=
  match t with Node c _ _ => c end.

Definition node_name (t : TreeNode) : option jsstring :=
  match t with Node _ n _ => n end.

Definition node_length (t : TreeNode) : number :=
  match t with Node _ _ l => l end.

(** The literal [{ children: [], name: null, length: 0 }]. *)
Definition emptyNode : TreeNode := Node [] None zero.

(** The default label of the parser for an unnamed internal node. *)
Definition INTERNAL : jsstring := js "Internal".

(* ===================================================================== *)
(** * parseNewick *)
(* ===================================================================== *)

(** The first loop of [parseNode]: scan [str] from index [i] with the
    running [depth]; the result is [endParen], -1 when the loop ends
    without the [break]. *)
Fixpoint findEndParenFrom (str : jsstring) (i : Z) (depth : Z) : Z :=
  match str with
  | [] => -1
  | c :: rest =>
      if (c =? LPAREN)%N then findEndParenFrom rest (i + 1) (depth + 1)
      else if (c =? RPAREN)%N then
        if depth - 1 =? 0 then i
        else findEndParenFrom rest (i + 1) (depth - 1)
      else findEndParenFrom rest (i + 1) depth
  end.

Definition findEndParen (str : jsstring) : Z := findEndParenFrom str 0 0.

(** [if (current.trim()) children.push(current.trim())] *)
Definition pushTrimmed (children : list jsstring) (current : jsstring)
  : list jsstring :=
  if nonEmpty (trim current) then children ++ [trim current] else children.

(** The second loop of [parseNode] over the rest of [childrenStr], with
    the loop state [depth], [current] and [children], followed by the
    push after the loop. *)
Fixpoint splitChildrenFrom (childrenStr : jsstring) (depth : Z)
  (current : jsstring) (children : list jsstring) : list jsstring :=
  match childrenStr with
  | [] => pushTrimmed children current
  | char :: rest =>
      if (char =? LPAREN)%N then
        splitChildrenFrom rest (depth + 1) (current ++ [char]) children
      else if (char =? RPAREN)%N then
        splitChildrenFrom rest (depth - 1) (current ++ [char]) children
      else if (char =? COMMA)%N && (depth =? 0) then
        splitChildrenFrom rest depth [] (pushTrimmed children current)
      else
        splitChildrenFrom rest depth (current ++ [char]) children
  end.

Definition splitChildren (childrenStr : jsstring) : list jsstring :=
  splitChildrenFrom childrenStr 0 [] [].

(** The label and branch length after the closing parenthesis. *)
Definition internalLabel (afterParen : jsstring) : option jsstring * number :=
  let colonIdx := indexOf COLON afterParen in
  if 0 <? colonIdx then
    (Some (strOr (trim (substring 0 colonIdx afterParen)) INTERNAL),
     orZero (parseFloat (substringFrom (colonIdx + 1) afterParen)))
  else if colonIdx =? 0 then
    (Some INTERNAL, orZero (parseFloat (substringFrom 1 afterParen)))
  else
    (Some (strOr (trim afterParen) INTERNAL), zero).

(** The [else] branch of [parseNode]: a leaf. *)
Definition parseLeaf (str : jsstring) : TreeNode :=
  let colonIdx := indexOf COLON str in
  if 0 <? colonIdx then
    Node [] (Some (trim (substring 0 colonIdx str)))
         (orZero (parseFloat (substringFrom (colonIdx + 1) str)))
  else
    Node [] (Some (trim str)) zero.

(** ** Facts that the recursion of [parseNode] rests on *)

Lemma trimStart_length (s : jsstring) :
  (List.length (trimStart s) <= List.length s)%nat.
Proof.
  induction s as [|c s IH]; simpl; [lia|].
  destruct (isWhiteSpace c); simpl; lia.
Qed.

Lemma trim_length (s : jsstring) :
  (List.length (trim s) <= List.length s)%nat.
Proof.
  unfold trim, trimEnd.
  rewrite length_rev.
  etransitivity; [apply trimStart_length|].
  rewrite length_rev. apply trimStart_length.
Qed.

(** The loop breaks at an index of the scanned text, and never at the
    index it starts from when the depth there is not above zero. *)
Lemma findEndParenFrom_bounds (s : jsstring) (i depth : Z) :
  findEndParenFrom s i depth <> -1 ->
  0 <= i ->
  i <= findEndParenFrom s i depth < i + Z.of_nat (List.length s)
  /\ (depth <= 0 -> i < findEndParenFrom s i depth).
Proof.
  revert i depth.
  induction s as [|c s IH]; intros i depth Hne Hi; simpl in *; [congruence|].
  destruct (c =? LPAREN)%N.
  - destruct (IH (i + 1) (depth + 1) Hne ltac:(lia)) as [H1 H2]. lia.
  - destruct (c =? RPAREN)%N.
    + destruct (depth - 1 =? 0) eqn:Hd.
      * apply Z.eqb_eq in Hd. lia.
      * destruct (IH (i + 1) (depth - 1) Hne ltac:(lia)) as [H1 H2]. lia.
    + destruct (IH (i + 1) depth Hne ltac:(lia)) as [H1 H2]. lia.
Qed.

Lemma findEndParen_bounds (s : jsstring) :
  findEndParen s <> -1 ->
  1 <= findEndParen s < Z.of_nat (List.length s).
Proof.
  intros Hne. unfold findEndParen in *.
  destruct (findEndParenFrom_bounds s 0 0 Hne ltac:(lia)) as [H1 H2].
  specialize (H2 ltac:(lia)). lia.
Qed.

Lemma substring_length (a b : Z) (s : jsstring) :
  (List.length (substring a b s)
   <= Z.to_nat (Z.max a b) - Z.to_nat (Z.min a b))%nat.
Proof. unfold substring. rewrite length_firstn. lia. Qed.

Lemma pushTrimmed_In (children : list jsstring) (current c : jsstring) :
  In c (pushTrimmed children current) ->
  In c children \/ (List.length c <= List.length current)%nat.
Proof.
  unfold pushTrimmed. destruct (nonEmpty (trim current)); [|tauto].
  intros H. apply in_app_or in H. destruct H as [H|[H|[]]]; [tauto|].
  subst c. right. apply trim_length.
Qed.

(** Every child string is no longer than the text it was cut from. *)
Lemma splitChildrenFrom_In (s : jsstring) :
  forall depth current children c,
    In c (splitChildrenFrom s depth current children) ->
    In c children
    \/ (List.length c <= List.length current + List.length s)%nat.
Proof.
  induction s as [|x s IH]; intros depth current children c H; simpl in H.
  - apply pushTrimmed_In in H. simpl. destruct H; [tauto|right; lia].
  - simpl List.length.
    destruct (x =? LPAREN)%N;
      [|destruct (x =? RPAREN)%N;
        [|destruct ((x =? COMMA)%N && (depth =? 0))]];
      apply IH in H; try rewrite length_app in H; simpl in H;
      try (destruct H; [tauto|right; lia]).
    destruct H as [H|H]; [|right; lia].
    apply pushTrimmed_In in H. destruct H; [tauto|right; lia].
Qed.

(** The substrings that [parseNode] recurses into are strictly shorter
    than its argument. *)
Lemma child_shorter (str child : jsstring) (endParen : Z) :
  findEndParen (trim str) = endParen ->
  (endParen =? -1) = false ->
  In child (splitChildren (substring 1 endParen (trim str))) ->
  (List.length child < List.length str)%nat.
Proof.
  intros He Hne Hin.
  apply Z.eqb_neq in Hne. subst endParen.
  pose proof (findEndParen_bounds _ Hne) as Hb.
  pose proof (trim_length str) as Ht.
  apply splitChildrenFrom_In in Hin. destruct Hin as [[]|Hin].
  pose proof (substring_length 1 (findEndParen (trim str)) (trim str)) as Hs.
  simpl in Hin. lia.
Qed.

(** [map] over a list with the membership proof at hand, for the
    recursive calls inside [children.map]. *)
Fixpoint map_In {A B : Type} (l : list A) : (forall x, In x l -> B) -> list B :=
  match l with
  | [] => fun _ => []
  | x :: xs => fun f =>
      f x (or_introl eq_refl) :: map_In xs (fun y H => f y (or_intror H))
  end.

Lemma map_In_map {A B : Type} (f : A -> B) (l : list A) :
  map_In l (fun x _ => f x) = List.map f l.
Proof. induction l as [|x l IH]; simpl; [reflexivity|]. now rewrite IH. Qed.

Definition inspect {A : Type} (a : A) : { b : A | a = b } :=
  exist _ a eq_refl.

(** [parseNode], by well-founded recursion on the length of [str]. *)
Equations? parseNode (str : jsstring) : TreeNode
  by wf (List.length str) lt :=
parseNode str with inspect (startsWith LPAREN (trim str)) := {
  | exist _ true _ with inspect (findEndParen (trim str)) := {
    | exist _ endParen Hend with inspect (endParen =? -1) := {
      | exist _ true _ => emptyNode
      | exist _ false Hfound =>
          let children := splitChildren (substring 1 endParen (trim str)) in
          let afterParen := substringFrom (endParen + 1) (trim str) in
          Node (map_In children (fun child Hin => parseNode child))
               (fst (internalLabel afterParen))
               (snd (internalLabel afterParen)) } }
  | exist _ false _ => parseLeaf (trim str) }.
Proof.
  eapply child_shorter; eauto.
Qed.

(** [parseNewick] *)
Definition parseNewick (newick : jsstring) : TreeNode :=
  parseNode (trim (replaceTrailingSemicolon newick)).

(** The defining equation of [parseNode], in the shape of the source. *)
Lemma parseNode_eq (str : jsstring) :
  parseNode str =
  let str := trim str in
  if startsWith LPAREN str then
    let endParen := findEndParen str in
    if endParen =? -1 then emptyNode
    else
      let children := splitChildren (substring 1 endParen str) in
      let afterParen := substringFrom (endParen + 1) str in
      Node (List.map parseNode children)
           (fst (internalLabel afterParen)) (snd (internalLabel afterParen))
  else parseLeaf str.
Proof.
  funelim (parseNode str); cbv zeta.
  all: repeat match goal with
              | H : ?b = _ |- context [if ?b then _ else _] => rewrite H
              end.
  all: rewrite ?map_In_map; reflexivity.
Qed.

(* ===================================================================== *)
(** * renderTreeAscii *)
(* ===================================================================== *)

(** ["└── "] *)
Definition LAST_CONNECTOR : jsstring := [9492; 9472; 9472; 32]%N.

(** ["├── "] *)
Definition MID_CONNECTOR : jsstring := [9500; 9472; 9472; 32]%N.

(** ["    "] *)
Definition INDENT : jsstring := js "    ".

(** ["│   "] *)
Definition BAR_INDENT : jsstring := [9474; 32; 32; 32]%N.

(** [tree.name || 'Internal Node'] *)
Definition displayName (name : option jsstring) : jsstring :=
  match name with
  | Some n => strOr n (js "Internal Node")
  | None => js "Internal Node"
  end.

(** [tree.length ? ` (${tree.length.toFixed(4)})` : ''] *)
Definition displayLength (length : number) : jsstring :=
  if truthy length then js " (" ++ toFixed length 4 ++ js ")" else [].

(** The line that [renderTreeAscii] appends for the node itself. *)
Definition nodeLine (tree : TreeNode) (prefix : jsstring) (isLast : bool)
  : jsstring :=
  let connector := if isLast then LAST_CONNECTOR else MID_CONNECTOR in
  prefix ++ connector ++ displayName (node_name tree)
         ++ displayLength (node_length tree) ++ [NEWLINE].

Definition newPrefix (prefix : jsstring) (isLast : bool) : jsstring :=
  prefix ++ (if isLast then INDENT else BAR_INDENT).

(** [renderTreeAscii(tree, prefix, isLast)]; the inner function is the
    [forEach] over [tree.children] with its [index]. *)
Fixpoint renderTreeAscii (tree : TreeNode) (prefix : jsstring) (isLast : bool)
  : jsstring :=
  let result := nodeLine tree prefix isLast in
  match tree with
  | Node children _ _ =>
      if (0 <? List.length children)%nat then
        result ++
        (fix forEach (rest : list TreeNode) (index : Z) : jsstring :=
           match rest with
           | [] => []
           | child :: rest' =>
               renderTreeAscii child (newPrefix prefix isLast)
                 (index =? Z.of_nat (List.length children) - 1)
               ++ forEach rest' (index + 1)
           end) children 0
      else result
  end.

(** The call with the default arguments [prefix = ''], [isLast = true]. *)
Definition render (tree : TreeNode) : jsstring := renderTreeAscii tree [] true.

(* ===================================================================== *)
(** * Notions that the specification uses *)
(* ===================================================================== *)

(** The change of parenthesis depth that one code unit makes. *)
Definition delta (c : char) : Z :=
  if (c =? LPAREN)%N then 1 else if (c =? RPAREN)%N then -1 else 0.

(** The change of parenthesis depth over a text: +1 for every ['('] and
    -1 for every [')']. *)
Fixpoint depthOf (s : jsstring) : Z :=
  match s with
  | [] => 0
  | c :: rest => delta c + depthOf rest
  end.

(** The parenthesis depth in front of index [k] of [s]. *)
Definition depthAt (s : jsstring) (k : nat) : Z := depthOf (firstn k s).

(** Index [j] holds the [')'] that matches a ['('] at index 0: the depth
    is back at zero right after [j], and was above zero between. *)
Definition matchingClose (s : jsstring) (j : nat) : Prop :=
  nth_error s j = Some RPAREN
  /\ depthAt s (S j) = 0
  /\ forall k, (0 < k <= j)%nat -> 0 < depthAt s k.

(** Balanced parentheses: the depth never drops below zero and ends
    at zero. *)
Definition balanced (s : jsstring) : Prop :=
  depthOf s = 0 /\ forall k, 0 <= depthAt s k.

(** The last code unit of [s] is [c]. *)
Definition endsWith (c : char) (s : jsstring) : bool :=
  match rev s with
  | c' :: _ => (c' =? c)%N
  | [] => false
  end.

(** Texts joined by a separator. *)
Fixpoint joinWith (sep : char) (segs : list jsstring) : jsstring :=
  match segs with
  | [] => []
  | x :: rest =>
      match rest with
      | [] => x
      | _ :: _ => x ++ sep :: joinWith sep rest
      end
  end.

(** The indices of the separators in [joinWith sep segs], counted from
    [offset]. *)
Fixpoint separators (offset : nat) (segs : list jsstring) : list nat :=
  match segs with
  | [] => []
  | x :: rest =>
      match rest with
      | [] => []
      | _ :: _ =>
          (offset + List.length x)%nat
          :: separators (offset + List.length x + 1) rest
      end
  end.

(** Index [k] of [s] holds a comma at parenthesis depth 0. *)
Definition topLevelComma (s : jsstring) (k : nat) : Prop :=
  nth_error s k = Some COMMA /\ depthAt s k = 0.

(** [segs] are the pieces of [s] between its commas at depth 0: the
    pieces and the commas between them make up [s], and the commas that
    separate them are exactly those at depth 0. *)
Definition topLevelSplit (s : jsstring) (segs : list jsstring) : Prop :=
  segs <> []
  /\ joinWith COMMA segs = s
  /\ forall k, In k (separators 0 segs) <-> topLevelComma s k.

(** A piece that is not blank. *)
Definition notBlank (seg : jsstring) : bool := nonEmpty (trim seg).

#[local] Unset Elimination Schemes.

(** A property of every node of a tree. *)
Inductive AllNodes (P : TreeNode -> Prop) : TreeNode -> Prop :=
| AllNodes_Node children name length :
    P (Node children name length) ->
    Forall (AllNodes P) children ->
    AllNodes P (Node children name length).
#[local] Set Elimination Schemes.

(** The number of nodes of a tree. *)
Fixpoint size (t : TreeNode) : nat :=
  match t with
  | Node children _ _ => S (list_sum (List.map size children))
  end.

(** The placeholder label of the renderer. *)
Definition PLACEHOLDER : jsstring := js "Internal Node".

(** A branch length that is a number and not zero. *)
Definition nonZero (x : number) : bool :=
  match x with
  | S754_zero _ | S754_nan => false
  | _ => true
  end.

(** The line of one node as the specification words it, without the
    line end: prefix, connector, name or placeholder, and the branch
    length in parentheses when it is not zero. *)
Definition specLine (tree : TreeNode) (prefix : jsstring) (isLast : bool)
  : jsstring :=
  prefix
  ++ (if isLast then LAST_CONNECTOR else MID_CONNECTOR)
  ++ match node_name tree with
     | Some (c :: n) => c :: n
     | Some [] | None => PLACEHOLDER
     end
  ++ (if nonZero (node_length tree)
      then js " (" ++ toFixed (node_length tree) 4 ++ js ")"
      else []).

(** The lines of a tree as the specification words them: the line of the
    node, then the lines of the children in order, under the prefix
    extended by four spaces below a last sibling and by a bar and three
    spaces otherwise; the last child is the one with no sibling after
    it. *)
Fixpoint specLines (tree : TreeNode) (prefix : jsstring) (isLast : bool)
  : list jsstring :=
  match tree with
  | Node children _ _ =>
      let below := prefix ++ (if isLast then INDENT else BAR_INDENT) in
      specLine tree prefix isLast
      :: (fix siblings (cs : list TreeNode) : list jsstring :=
            match cs with
            | [] => []
            | c :: rest =>
                specLines c below (match rest with [] => true | _ => false end)
                ++ siblings rest
            end) children
  end.

(** Lines joined into one text, each ended by a line feed. *)
Definition joinLines (lines : list jsstring) : jsstring :=
  List.concat (List.map (fun l => l ++ [NEWLINE]) lines).

(** The relation between the argument of a recursive call of [parseNode]
    and the argument of the call that makes it. *)
Definition recursiveCall (child str : jsstring) : Prop :=
  startsWith LPAREN (trim str) = true
  /\ findEndParen (trim str) <> -1
  /\ In child
       (splitChildren (substring 1 (findEndParen (trim str)) (trim str))).

(** ** Auxiliary notions of the proofs *)

(** No white space in front. *)
Definition noLeadingSpace (s : jsstring) : Prop :=
  match s with c :: _ => isWhiteSpace c = false | [] => True end.

(** The scan state [depth] in front of a text, and the index [j] of that
    text at which the depth first comes back to zero. *)
Definition closesAt (depth : Z) (s : jsstring) (j : nat) : Prop :=
  nth_error s j = Some RPAREN
  /\ depth + depthOf (firstn (S j) s) = 0
  /\ forall k, (k <= j)%nat -> 0 < depth + depthOf (firstn k s).

(** The pieces that the second loop of [parseNode] cuts, before they are
    trimmed and the blank ones dropped. *)
Fixpoint segmentsFrom (s : jsstring) (depth : Z) (current : jsstring)
  : list jsstring :=
  match s with
  | [] => [current]
  | c :: rest =>
      if (c =? COMMA)%N && (depth =? 0) then
        current :: segmentsFrom rest depth []
      else segmentsFrom rest (depth + delta c) (current ++ [c])
  end.

(** ** The claim on the lines of the rendering as the specification
    states it *)

(** A node whose name holds no line feed. *)
Definition singleLineName (t : TreeNode) : Prop :=
  match node_name t with
  | Some n => ~ In NEWLINE n
  | None => True
  end.

(** A numeral with four digits after the decimal point. *)
Definition fourDecimalPlaces (text : jsstring) : Prop :=
  exists sign whole frac,
    text = sign ++ whole ++ ch "." :: frac
    /\ (sign = [] \/ sign = js "-")
    /\ whole <> [] /\ List.length frac = 4%nat
    /\ Forall (fun c => isDigit c = true) (whole ++ frac).

(** C6 as the specification states it, for one node: the rendering
    starts with one line, made of the prefix, the connector, the name
    (the placeholder when there is none) and, exactly when the branch
    length is not zero, the length to four decimal places in
    parentheses. *)
Definition nodeLineAsStated (tree : TreeNode) (prefix : jsstring)
  (isLast : bool) : Prop :=
  let name :=
    match node_name tree with Some n => n | None => PLACEHOLDER end in
  exists annotation rest,
    renderTreeAscii tree prefix isLast
    = prefix ++ (if isLast then LAST_CONNECTOR else MID_CONNECTOR)
      ++ name ++ annotation ++ NEWLINE :: rest
    /\ ~ In NEWLINE (name ++ annotation)
    /\ (isZero (node_length tree) = true -> annotation = [])
    /\ (isZero (node_length tree) = false ->
        exists d, annotation = js " (" ++ d ++ js ")" /\ fourDecimalPlaces d).

(** ** The claim on children as the specification states it *)

(** C3 as the specification states it, for one input [str]: the
    children are the parses of the pieces between the commas at depth 0
    of the text between the parentheses, one child for every piece;
    with nothing between the parentheses there is no child. *)
Definition internalChildrenAsStated (str : jsstring) : Prop :=
  forall j,
    startsWith LPAREN (trim str) = true ->
    matchingClose (trim str) j ->
    findEndParen (trim str) = Z.of_nat j
    /\ (exists segs,
           topLevelSplit (firstn (j - 1) (skipn 1 (trim str))) segs
           /\ (firstn (j - 1) (skipn 1 (trim str)) <> [] ->
               node_children (parseNode str) = List.map parseNode segs))
    /\ (firstn (j - 1) (skipn 1 (trim str)) = [] ->
        node_children (parseNode str) = []).

(** ** The claims on names as the specification states them *)

(** C4 as the specification states it, for one input [str]: the name is
    the text between the matching [')'] and the first [':'], as it
    stands. *)
Definition internalLabelAsStated (str : jsstring) : Prop :=
  forall j,
    startsWith LPAREN str = true ->
    matchingClose str j ->
    (forall name rest,
        skipn (S j) str = name ++ COLON :: rest -> ~ In COLON name ->
        node_name (parseNode str)
        = Some (match name with [] => INTERNAL | _ => name end)
        /\ node_length (parseNode str) = orZero (parseFloat rest))
    /\ (~ In COLON (skipn (S j) str) ->
        node_name (parseNode str)
        = Some (match skipn (S j) str with [] => INTERNAL | r => r end)
        /\ node_length (parseNode str) = zero).

(** C5 as the specification states it, for one input [str]: the name is
    the text in front of the first [':'], verbatim, also when it is
    empty. *)
Definition leafAsStated (str : jsstring) : Prop :=
  startsWith LPAREN str = false ->
  (forall name rest,
      str = name ++ COLON :: rest -> ~ In COLON name ->
      parseNode str = Node [] (Some name) (orZero (parseFloat rest)))
  /\ (~ In COLON str -> parseNode str = Node [] (Some str) zero).

(** ** The Newick writer *)

#[local] Unset Elimination Schemes.

(** Modelled from the spec: the tree of section 3, which the Newick
    writer of section 4.4 reads. The writer is not among the sources. *)
Inductive SpecTree : Type :=
| Leaf (name : jsstring) (branch_length : number)
| Internal (children : list SpecTree) (label : option jsstring)
           (branch_length : number) (height : number).
#[local] Set Elimination Schemes.

(** The characters that a name must not contain. *)
Definition reserved (c : char) : bool :=
  ((c =? LPAREN) || (c =? RPAREN) || (c =? COMMA) || (c =? COLON)
   || (c =? SEMICOLON))%N.

Definition validName (n : jsstring) : bool :=
  forallb (fun c => negb (reserved c)) n.

(** The value of a number that is neither infinite nor NaN. *)
Definition valueOf (x : number) : option Q :=
  match x with
  | S754_zero _ => Some 0%Q
  | S754_finite s m e =>
      Some ((if s then -1 else 1) * inject_Z (numerator m e)
            / inject_Z (denominator e))%Q
  | _ => None
  end.

(** Two branch lengths differ by at most [1e-9]. *)
Definition withinTolerance (x y : number) : bool :=
  match valueOf x, valueOf y with
  | Some a, Some b => Qle_bool (Qabs (a - b)) (1 # 1000000000)
  | _, _ => false
  end.

(** The characters of a decimal number. *)
Definition decimalChar (c : char) : bool :=
  (isDigit c || (c =? ch ".") || (c =? ch "-") || (c =? ch "+")
   || (c =? ch "e") || (c =? ch "E"))%N.

Section Writer.

(** Modelled from the spec: the text of a branch length, a "decimal
    number, fixed or variable precision" that the specification leaves
    open. *)
Variable fmt : number -> jsstring.

(** Modelled from the spec: [\[':' branch_length\]], left out only for a
    root whose branch length is exactly 0. *)
Definition lengthText (isRoot : bool) (branch_length : number) : jsstring :=
  if isRoot && isZero branch_length then [] else COLON :: fmt branch_length.

(** Modelled from the spec: [\[name\]] of an internal node, nothing when
    there is no label. *)
Definition labelText (label : option jsstring) : jsstring :=
  match label with Some l => l | None => [] end.

(** Modelled from the spec: the grammar rule [subtree] of section 4.4,
    children in their stored order. *)
Fixpoint subtree (isRoot : bool) (t : SpecTree) : jsstring :=
  match t with
  | Leaf name branch_length => name ++ lengthText isRoot branch_length
  | Internal children label branch_length _ =>
      LPAREN :: joinWith COMMA (List.map (subtree false) children)
      ++ RPAREN :: labelText label ++ lengthText isRoot branch_length
  end.

(** Modelled from the spec: the grammar rule [tree]. *)
Definition serialize (t : SpecTree) : jsstring := subtree true t ++ [SEMICOLON].

(** Modelled from the spec: the trees that the writer has a text for:
    leaf names without the reserved characters, and internal nodes with
    at least one child. *)
Fixpoint serializable (t : SpecTree) : bool :=
  match t with
  | Leaf name _ => validName name
  | Internal children _ _ _ =>
      nonEmptyList children && forallb serializable children
  end.

#[local] Unset Elimination Schemes.

(** The parsed tree [p] is the tree [t] up to the tolerance of the
    branch lengths and the placeholder label of unnamed internal nodes:
    the same shape, the same leaf names in the same places. *)
Inductive sameTree : SpecTree -> TreeNode -> Prop :=
| sameTree_Leaf name branch_length length :
    withinTolerance branch_length length = true ->
    sameTree (Leaf name branch_length) (Node [] (Some name) length)
| sameTree_Internal children label branch_length height nodes length :
    children <> [] ->
    Forall2 sameTree children nodes ->
    withinTolerance branch_length length = true ->
    sameTree (Internal children label branch_length height)
             (Node nodes
                   (Some match label with
                         | Some (c :: l) => c :: l
                         | Some [] | None => INTERNAL
                         end)
                   length).
#[local] Set Elimination Schemes.

(** C1 as the specification states it, for one tree [t]. *)
Definition roundTripAsStated (t : SpecTree) : Prop :=
  serializable t = true -> sameTree t (parseNewick (serialize t)).

(** No white space in front. *)
Definition headClean (s : jsstring) : bool :=
  match s with c :: _ => negb (isWhiteSpace c) | [] => true end.

(** A name that survives the parser as it stands: none of the reserved
    characters, and no white space at either end. *)
Definition cleanName (n : jsstring) : bool :=
  validName n && headClean n && headClean (rev n).

(** The text of the branch length, where one is written, is made of the
    characters of a decimal number, and [parseFloat] reads it back within
    the tolerance. *)
Definition lengthReadable (isRoot : bool) (branch_length : number) : bool :=
  if isRoot && isZero branch_length then true
  else forallb decimalChar (fmt branch_length)
       && withinTolerance branch_length
            (orZero (parseFloat (fmt branch_length))).

(** The trees of the amended round trip: leaf names are not empty, names
    and labels are clean, every internal node has a child, and every
    branch length is readable. *)
Fixpoint roundTrippable (isRoot : bool) (t : SpecTree) : bool :=
  match t with
  | Leaf name branch_length =>
      nonEmpty name && cleanName name && lengthReadable isRoot branch_length
  | Internal children label branch_length _ =>
      nonEmptyList children
      && forallb (roundTrippable false) children
      && cleanName (labelText label)
      && lengthReadable isRoot branch_length
  end.

End Writer.

(** ** Written texts under the scans of the parser *)

(** Scanned from depth [d], the text never drops below depth 0. *)
Fixpoint staysOpen (d : Z) (s : jsstring) : Prop :=
  match s with
  | [] => True
  | c :: rest => 0 <= d + delta c /\ staysOpen (d + delta c) rest
  end.

(** Scanned from depth [d], the text has no comma at depth 0. *)
Fixpoint commasInside (d : Z) (s : jsstring) : Prop :=
  match s with
  | [] => True
  | c :: rest => (c = COMMA -> 0 < d) /\ commasInside (d + delta c) rest
  end.

(** A text without parentheses and commas. *)
Definition plain (s : jsstring) : Prop :=
  Forall (fun c => c <> LPAREN /\ c <> RPAREN /\ c <> COMMA) s.

(** What the parser needs of the text of a subtree. *)
Record piece (x : jsstring) : Prop := {
  piece_nonempty : x <> [];
  piece_trim : trim x = x;
  piece_open : staysOpen 0 x;
  piece_commas : commasInside 0 x;
  piece_closed : depthOf x = 0
}.

(** ** Induction over trees *)

Section TreeInduction.

Variable P : TreeNode -> Prop.
Hypothesis HNode : forall children name length,
  Forall P children -> P (Node children name length).

Fixpoint TreeNode_ind' (t : TreeNode) : P t :=
  match t with
  | Node children name length =>
      HNode children name length
        ((fix all (l : list TreeNode) : Forall P l :=
            match l with
            | [] => Forall_nil P
            | c :: l' => Forall_cons c (TreeNode_ind' c) (all l')
            end) children)
  end.

End TreeInduction.

Section SpecTreeInduction.

Variable P : SpecTree -> Prop.
Hypothesis HLeaf : forall name branch_length, P (Leaf name branch_length).
Hypothesis HInternal : forall children label branch_length height,
  Forall P children -> P (Internal children label branch_length height).

Fixpoint SpecTree_ind' (t : SpecTree) : P t :=
  match t with
  | Leaf name branch_length => HLeaf name branch_length
  | Internal children label branch_length height =>
      HInternal children label branch_length height
        ((fix all (l : list SpecTree) : Forall P l :=
            match l with
            | [] => Forall_nil P
            | c :: l' => Forall_cons c (SpecTree_ind' c) (all l')
            end) children)
  end.

End SpecTreeInduction.

(* ===================================================================== *)
(** * The page component [Home] *)
(* ===================================================================== *)

(** [s.split(sep)] for a separator of one code unit; [current] is the
    piece being read. *)
Fixpoint splitFrom (sep : char) (s current : jsstring) : list jsstring :=
  match s with
  | [] => [current]
  | c :: rest =>
      if (c =? sep)%N then current :: splitFrom sep rest []
      else splitFrom sep rest (current ++ [c])
  end.

Definition split (sep : char) (s : jsstring) : list jsstring :=
  splitFrom sep s [].

(** [accessions.split('\n').map(a => a.trim()).filter(a => a)] *)
Definition accessionList (accessions : jsstring) : list jsstring :=
  filter nonEmpty (List.map trim (split NEWLINE accessions)).

(** [s.endsWith(suffix)] *)
Definition endsWithString (suffix s : jsstring) : bool :=
  isPrefixOf (rev suffix) (rev s).

(** A [File]: its name and its size in bytes. *)
Record File : Type := { file_name : jsstring; file_size : Z }.

Inductive InputMode : Type := uniprot | fasta.

(** A value of a [FormData] entry. *)
Inductive FormValue : Type :=
| FileValue (f : File)
| TextValue (s : jsstring).

(** The two calls of [axios.post]: the body of [/api/analyze], where a
    field that is [undefined] is [None], and the form of
    [/api/analyze-fasta]. *)
Inductive Request : Type :=
| PostAnalyze (accessions : list jsstring)
              (trim_motif trim_before_motif : option jsstring)
| PostAnalyzeFasta (formData : list (jsstring * FormValue)).

(** [s || undefined] *)
Definition orUndefined (s : jsstring) : option jsstring :=
  if nonEmpty s then Some s else None.

Module Home.

Section Component.

(** The type of [response.data]. *)
Variable Data : Type.

(** [String.prototype.toLowerCase], which rests on the Unicode case
    tables. *)
Variable toLowerCase : jsstring -> jsstring.

(** How [axios.post] ends: with [response.data], or with an error whose
    [err.response?.data?.detail] is a string or is missing. *)
Inductive Outcome : Type :=
| Resolved (data : option Data)
| Rejected (detail : option jsstring).

(** The state of the component, one field for every [useState]. *)
Record State : Type := mkState {
  accessions : jsstring;
  loading : bool;
  results : option Data;
  error : jsstring;
  inputMode : InputMode;
  selectedFile : option File;
  trimMotif : jsstring;
  trimBeforeMotif : jsstring
}.

Definition setAccessions (v : jsstring) (st : State) : State :=
  mkState v (loading st) (results st) (error st) (inputMode st)
          (selectedFile st) (trimMotif st) (trimBeforeMotif st).

Definition setLoading (v : bool) (st : State) : State :=
  mkState (accessions st) v (results st) (error st) (inputMode st)
          (selectedFile st) (trimMotif st) (trimBeforeMotif st).

Definition setResults (v : option Data) (st : State) : State :=
  mkState (accessions st) (loading st) v (error st) (inputMode st)
          (selectedFile st) (trimMotif st) (trimBeforeMotif st).

Definition setError (v : jsstring) (st : State) : State :=
  mkState (accessions st) (loading st) (results st) v (inputMode st)
          (selectedFile st) (trimMotif st) (trimBeforeMotif st).

Definition setInputMode (v : InputMode) (st : State) : State :=
  mkState (accessions st) (loading st) (results st) (error st) v
          (selectedFile st) (trimMotif st) (trimBeforeMotif st).

Definition setSelectedFile (v : option File) (st : State) : State :=
  mkState (accessions st) (loading st) (results st) (error st) (inputMode st)
          v (trimMotif st) (trimBeforeMotif st).

Definition setTrimMotif (v : jsstring) (st : State) : State :=
  mkState (accessions st) (loading st) (results st) (error st) (inputMode st)
          (selectedFile st) v (trimBeforeMotif st).

Definition setTrimBeforeMotif (v : jsstring) (st : State) : State :=
  mkState (accessions st) (loading st) (results st) (error st) (inputMode st)
          (selectedFile st) (trimMotif st) v.

(** The state of the first render. *)
Definition initial : State :=
  mkState (js "P03314" ++ NEWLINE :: js "P17763" ++ NEWLINE :: js "P29991"
           ++ NEWLINE :: js "P27909" ++ NEWLINE :: js "P09866")
          false None [] uniprot None [] [].

(** The form of the FASTA request. *)
Definition fastaForm (f : File) (st : State) : list (jsstring * FormValue) :=
  [(js "file", FileValue f)]
  ++ (if nonEmpty (trimMotif st)
      then [(js "trim_motif", TextValue (trimMotif st))] else [])
  ++ (if nonEmpty (trimBeforeMotif st)
      then [(js "trim_before_motif", TextValue (trimBeforeMotif st))] else []).

(** [handleAnalyze] up to its [await]: the state then, and the request
    that is under way; without a request the function has returned, and
    the [finally] block has run. *)
Definition analyzeStart (st : State) : State * option Request :=
  let st := setResults None (setError [] (setLoading true st)) in
  match inputMode st with
  | uniprot =>
      let accessionList := accessionList (accessions st) in
      if (List.length accessionList <? 2)%nat then
        (setLoading false
           (setLoading false
              (setError (js "Please enter at least 2 UniProt accessions") st)),
         None)
      else
        (st, Some (PostAnalyze accessionList
                               (orUndefined (trimMotif st))
                               (orUndefined (trimBeforeMotif st))))
  | fasta =>
      match selectedFile st with
      | None =>
          (setLoading false
             (setLoading false (setError (js "Please select a FASTA file") st)),
           None)
      | Some f => (st, Some (PostAnalyzeFasta (fastaForm f st)))
      end
  end.

(** [handleAnalyze] from the end of its [await]: [setResults], or the
    [catch] block, and then the [finally] block. *)
Definition analyzeFinish (outcome : Outcome) (st : State) : State :=
  match outcome with
  | Resolved data => setLoading false (setResults data st)
  | Rejected detail =>
      setLoading false
        (setError
           (strOr (match detail with Some d => d | None => [] end)
                  (js "Analysis failed. Please try again."))
           st)
  end.

(** [handleAnalyze] run to its end against a server [post]. *)
Definition handleAnalyze (post : Request -> Outcome) (st : State) : State :=
  match analyzeStart st with
  | (st', Some request) => analyzeFinish (post request) st'
  | (st', None) => st'
  end.

Definition validExtensions : list jsstring := [js "fasta"; js "fa"; js "faa"].

Definition hasValidExtension (name : jsstring) : bool :=
  let fileName := toLowerCase name in
  existsb (fun ext =>
             endsWithString (ch "." :: ext) fileName
             || endsWithString (ch "." :: ext ++ js ".txt") fileName)
          validExtensions.

Definition maxSize : Z := 10 * 1024 * 1024.

(** The message of the template literal, with the name of the file
    between double quotes. *)
Definition invalidFormat (name : jsstring) : jsstring :=
  js "Invalid file format. File name: " ++ [34%N] ++ name ++ [34%N]
  ++ js ". Please select a .fasta, .fa, or .faa file".

(** [handleFileChange] for [e.target.files?.\[0\]]; the second component
    tells whether [e.target.value = ''] was run. *)
Definition handleFileChange (file : option File) (st : State) : State * bool :=
  match file with
  | Some f =>
      if negb (hasValidExtension (file_name f)) then
        (setSelectedFile None (setError (invalidFormat (file_name f)) st), true)
      else if maxSize <? file_size f then
        (setSelectedFile None
           (setError (js "File too large. Maximum size is 10MB") st), true)
      else (setError [] (setSelectedFile (Some f) st), false)
  | None => (st, false)
  end.

(** [clearFile]; [fileInput] tells whether the input element exists, and
    the second component whether its value was reset. *)
Definition clearFile (fileInput : bool) (st : State) : State * bool :=
  (setSelectedFile None st, fileInput).

(** The [disabled] attribute of the Analyze button. *)
Definition analyzeDisabled (st : State) : bool :=
  loading st
  || (match inputMode st with fasta => true | uniprot => false end
      && match selectedFile st with None => true | Some _ => false end).

(** What happens to the component. *)
Inductive Event : Type :=
| ClickAnalyze
| Response (outcome : Outcome)
| FileChange (file : option File)
| ClearFile (fileInput : bool)
| SelectTab (mode : InputMode)
| TypeAccessions (v : jsstring)
| TypeTrimMotif (v : jsstring)
| TypeTrimBeforeMotif (v : jsstring).

(** The state after an event. *)
Definition step (st : State) (e : Event) : State :=
  match e with
  | ClickAnalyze => fst (analyzeStart st)
  | Response outcome => analyzeFinish outcome st
  | FileChange file => fst (handleFileChange file st)
  | ClearFile fileInput => fst (clearFile fileInput st)
  | SelectTab mode => setError [] (setInputMode mode st)
  | TypeAccessions v => setAccessions v st
  | TypeTrimMotif v => setTrimMotif v st
  | TypeTrimBeforeMotif v => setTrimBeforeMotif v st
  end.

(** The state after a run of events from the first render. *)
Definition after (events : list Event) : State := fold_left step events initial.

(** A file that passes both checks of [handleFileChange]. *)
Definition accepted (f : File) : Prop :=
  hasValidExtension (file_name f) = true /\ file_size f <= maxSize.

(** A request as the server may expect it: at least two accessions, each
    not empty, without white space at either end and without a line
    feed, and no empty motif; or a form that starts with the file and
    holds each motif at most once and never empty. *)
Definition wellFormed (r : Request) : Prop :=
  match r with
  | PostAnalyze l tm tb =>
      (2 <= List.length l)%nat
      /\ Forall (fun a => a <> [] /\ trim a = a /\ ~ In NEWLINE a) l
      /\ tm <> Some [] /\ tb <> Some []
  | PostAnalyzeFasta form =>
      exists f rest,
        form = (js "file", FileValue f) :: rest
        /\ Forall (fun kv => exists v, snd kv = TextValue v /\ v <> []) rest
        /\ NoDup (List.map fst form)
  end.

End Component.

Arguments Resolved {Data} data.
Arguments Rejected {Data} detail.
Arguments mkState {Data}.
Arguments accessions {Data} s.
Arguments loading {Data} s.
Arguments results {Data} s.
Arguments error {Data} s.
Arguments inputMode {Data} s.
Arguments selectedFile {Data} s.
Arguments trimMotif {Data} s.
Arguments trimBeforeMotif {Data} s.
Arguments setAccessions {Data} v st.
Arguments setLoading {Data} v st.
Arguments setResults {Data} v st.
Arguments setError {Data} v st.
Arguments setInputMode {Data} v st.
Arguments setSelectedFile {Data} v st.
Arguments setTrimMotif {Data} v st.
Arguments setTrimBeforeMotif {Data} v st.
Arguments fastaForm {Data} f st.
Arguments analyzeStart {Data} st.
Arguments analyzeFinish {Data} outcome st.
Arguments handleAnalyze {Data} post st.
Arguments handleFileChange {Data} toLowerCase file st.
Arguments clearFile {Data} fileInput st.
Arguments analyzeDisabled {Data} st.
Arguments step {Data} toLowerCase st e.
Arguments after {Data} toLowerCase events.

End Home.

(** [toLowerCase] on ASCII text: the letters [A] to [Z] go to [a] to
    [z]. *)
Definition asciiLower (s : jsstring) : jsstring :=
  List.map (fun c => if ((65 <=? c) && (c <=? 90))%N then (c + 32)%N else c) s.

(** ** Further notions: names, sizes and indentation *)

(** A node with a name that is not empty and has no white space at
    either end. *)
Definition namedNode (t : TreeNode) : Prop :=
  exists n, node_name t = Some n /\ n <> [] /\ trim n = n.

Definition allWhiteSpace (ws : jsstring) : Prop :=
  Forall (fun c => isWhiteSpace c = true) ws.

(** The depths of the nodes of a tree in pre-order, the root at [d]. *)
Fixpoint depths (t : TreeNode) (d : nat) : list nat :=
  match t with
  | Node children _ _ =>
      d :: (fix below (cs : list TreeNode) : list nat :=
              match cs with
              | [] => []
              | c :: rest => depths c (S d) ++ below rest
              end) children
  end.

(** A character of the indentation: a space or the bar ["│"]. *)
Definition indentChar (c : char) : Prop := c = 32%N \/ c = 9474%N.

(** A line of a node at depth [d]: [4 * d] characters of indentation,
    then one of the two connectors. *)
Definition lineAtDepth (line : jsstring) (d : nat) : Prop :=
  exists indent connector rest,
    line = indent ++ connector ++ rest
    /\ List.length indent = (4 * d)%nat
    /\ Forall indentChar indent
    /\ (connector = LAST_CONNECTOR \/ connector = MID_CONNECTOR).

(* ===================================================================== *)
(** * The model on concrete inputs *)
(* ===================================================================== *)

Example parseFloat_tenth :
  parseFloat (js "0.1") = S754_finite false 7205759403792794 (-56).
Proof. reflexivity. Qed.

Example parseFloat_prefix :
  parseFloat (js " -12.5e-1xyz") = S754_finite true 5629499534213120 (-52).
Proof. reflexivity. Qed.

Example parseFloat_tie_to_even :
  parseFloat (js "9007199254740993") = S754_finite false 4503599627370496 1.
Proof. reflexivity. Qed.

Example parseFloat_not_a_number :
  parseFloat (js "abc") = S754_nan /\ parseFloat (js ".") = S754_nan
  /\ parseFloat [] = S754_nan.
Proof. repeat split. Qed.

Example parseFloat_overflow :
  parseFloat (js "1.7976931348623159e308") = S754_infinity false.
Proof. vm_compute. reflexivity. Qed.

Example toFixed_rounds_half_up :
  toFixed (parseFloat (js "2.5")) 0 = js "3"
  /\ toFixed (parseFloat (js "1.45")) 1 = js "1.4"
  /\ toFixed (parseFloat (js "-0.00001")) 4 = js "-0.0000".
Proof. repeat split. Qed.

Example toFixed_large :
  toFixed (parseFloat (js "1e21")) 4 = js "1e+21"
  /\ toFixed (parseFloat (js "123456789012345678901234567890")) 4
     = js "1.2345678901234568e+29".
Proof. vm_compute. split; reflexivity. Qed.

Example parseNewick_nested :
  parseNewick (js "(A , (B,C)x:3, , D:);")
  = Node [Node [] (Some (js "A")) zero;
          Node [Node [] (Some (js "B")) zero; Node [] (Some (js "C")) zero]
               (Some (js "x")) (parseFloat (js "3"));
          Node [] (Some (js "D")) zero]
         (Some (js "Internal")) zero.
Proof. vm_compute. reflexivity. Qed.

Example render_siblings :
  render (parseNewick (js "((A,B)x,C);"))
  = LAST_CONNECTOR ++ js "Internal" ++ [NEWLINE]
    ++ INDENT ++ MID_CONNECTOR ++ js "x" ++ [NEWLINE]
    ++ INDENT ++ BAR_INDENT ++ MID_CONNECTOR ++ js "A" ++ [NEWLINE]
    ++ INDENT ++ BAR_INDENT ++ LAST_CONNECTOR ++ js "B" ++ [NEWLINE]
    ++ INDENT ++ LAST_CONNECTOR ++ js "C" ++ [NEWLINE].
Proof. vm_compute. reflexivity. Qed.

(* ===================================================================== *)
(** * Properties of the string operations *)
(* ===================================================================== *)

Lemma trimStart_noLeadingSpace (s : jsstring) : noLeadingSpace (trimStart s).
Proof.
  induction s as [|c s IH]; simpl; [exact I|].
  destruct (isWhiteSpace c) eqn:E; [exact IH|exact E].
Qed.

Lemma trimStart_id (s : jsstring) : noLeadingSpace s -> trimStart s = s.
Proof. destruct s as [|c s]; simpl; [reflexivity|]. now intros ->. Qed.

(** [trimStart] removes a prefix. *)
Lemma trimStart_suffix (s : jsstring) :
  exists ws, s = ws ++ trimStart s /\ Forall (fun c => isWhiteSpace c = true) ws.
Proof.
  induction s as [|c s [ws [IH1 IH2]]]; simpl.
  - exists []. split; [reflexivity|constructor].
  - destruct (isWhiteSpace c) eqn:E.
    + exists (c :: ws). split; [simpl; congruence|now constructor].
    + exists []. split; [reflexivity|constructor].
Qed.

Lemma trimEnd_prefix (s : jsstring) :
  exists ws, s = trimEnd s ++ ws /\ Forall (fun c => isWhiteSpace c = true) ws.
Proof.
  unfold trimEnd. destruct (trimStart_suffix (rev s)) as [ws [H1 H2]].
  exists (rev ws). split.
  - rewrite <- rev_app_distr, <- H1. now rewrite rev_involutive.
  - now apply Forall_rev.
Qed.

Lemma trimEnd_noLeadingSpace (s : jsstring) :
  noLeadingSpace s -> noLeadingSpace (trimEnd s).
Proof.
  intros H. destruct (trimEnd_prefix s) as [ws [H1 H2]].
  destruct (trimEnd s) as [|c t] eqn:E; [exact I|].
  rewrite H1 in H. exact H.
Qed.

Lemma trimEnd_idempotent (s : jsstring) : trimEnd (trimEnd s) = trimEnd s.
Proof.
  unfold trimEnd. rewrite rev_involutive.
  now rewrite (trimStart_id _ (trimStart_noLeadingSpace _)).
Qed.

Lemma trim_noLeadingSpace (s : jsstring) : noLeadingSpace (trim s).
Proof. apply trimEnd_noLeadingSpace, trimStart_noLeadingSpace. Qed.

Lemma trim_idempotent (s : jsstring) : trim (trim s) = trim s.
Proof.
  unfold trim at 1.
  rewrite (trimStart_id _ (trim_noLeadingSpace s)).
  unfold trim. apply trimEnd_idempotent.
Qed.

(** [parseNode] sees its argument only through [trim]. *)
Lemma parseNode_trim (str : jsstring) : parseNode (trim str) = parseNode str.
Proof. rewrite (parseNode_eq (trim str)), (parseNode_eq str). now rewrite trim_idempotent. Qed.

(* ===================================================================== *)
(** * The scan for the closing parenthesis *)
(* ===================================================================== *)

Lemma depthOf_firstn_cons (c : char) (s : jsstring) (k : nat) :
  depthOf (firstn (S k) (c :: s)) = delta c + depthOf (firstn k s).
Proof. reflexivity. Qed.

Lemma closesAt_cons (depth : Z) (c : char) (s : jsstring) (j : nat) :
  closesAt depth (c :: s) (S j) ->
  closesAt (depth + delta c) s j.
Proof.
  intros (Hn & Hd & Hk). repeat split.
  - exact Hn.
  - rewrite depthOf_firstn_cons in Hd. lia.
  - intros k Hle. specialize (Hk (S k) ltac:(lia)).
    rewrite depthOf_firstn_cons in Hk. lia.
Qed.

Lemma closesAt_cons_inv (depth : Z) (c : char) (s : jsstring) (j : nat) :
  0 < depth ->
  closesAt (depth + delta c) s j ->
  closesAt depth (c :: s) (S j).
Proof.
  intros Hpos (Hn & Hd & Hk). repeat split.
  - exact Hn.
  - rewrite depthOf_firstn_cons. lia.
  - intros [|k] Hle; [simpl; lia|].
    specialize (Hk k ltac:(lia)). rewrite depthOf_firstn_cons. lia.
Qed.

(** Completeness: where the depth first returns to zero, the loop breaks. *)
Lemma findEndParenFrom_complete (s : jsstring) :
  forall i depth j,
    closesAt depth s j -> findEndParenFrom s i depth = i + Z.of_nat j.
Proof.
  induction s as [|c s IH]; intros i depth j H.
  - destruct H as (Hn & _). destruct j; discriminate.
  - destruct j as [|j].
    + destruct H as (Hn & Hd & _). simpl in Hn. injection Hn as ->.
      rewrite depthOf_firstn_cons in Hd.
      change (depth + (-1 + 0) = 0) in Hd.
      change (findEndParenFrom (RPAREN :: s) i depth)
        with (if depth - 1 =? 0 then i
              else findEndParenFrom s (i + 1) (depth - 1)).
      replace (depth - 1 =? 0) with true by (symmetry; apply Z.eqb_eq; lia).
      lia.
    + pose proof (closesAt_cons _ _ _ _ H) as H'.
      destruct H as (_ & _ & Hk). specialize (Hk 1%nat ltac:(lia)).
      rewrite depthOf_firstn_cons in Hk. simpl in Hk.
      unfold delta in *. simpl.
      destruct (c =? LPAREN)%N.
      * rewrite (IH _ _ _ H'). lia.
      * destruct (c =? RPAREN)%N.
        -- replace (depth - 1 =? 0) with false by (symmetry; apply Z.eqb_neq; lia).
           replace (depth - 1) with (depth + -1) by lia.
           rewrite (IH _ _ _ H'). lia.
        -- replace (depth + 0) with depth in H' by lia.
           rewrite (IH _ _ _ H'). lia.
Qed.

(** Soundness: where the loop breaks, the depth has first returned to
    zero. *)
Lemma findEndParenFrom_sound (s : jsstring) :
  forall i depth,
    0 < depth -> 0 <= i ->
    findEndParenFrom s i depth <> -1 ->
    exists j, findEndParenFrom s i depth = i + Z.of_nat j /\ closesAt depth s j.
Proof.
  induction s as [|c s IH]; intros i depth Hd Hi Hne; simpl in *; [congruence|].
  destruct (c =? LPAREN)%N eqn:EL.
  - destruct (IH (i + 1) (depth + 1) ltac:(lia) ltac:(lia) Hne) as (j & Hj & Hc).
    exists (S j). split; [lia|].
    apply closesAt_cons_inv; [lia|]. unfold delta. now rewrite EL.
  - destruct (c =? RPAREN)%N eqn:ER.
    + destruct (depth - 1 =? 0) eqn:E0.
      * apply Z.eqb_eq in E0. exists O. split; [lia|].
        apply N.eqb_eq in ER. subst c.
        split; [reflexivity|split].
        -- rewrite depthOf_firstn_cons. change (depth + (-1 + 0) = 0). lia.
        -- intros k Hk. replace k with O by lia. simpl. lia.
      * apply Z.eqb_neq in E0.
        destruct (IH (i + 1) (depth - 1) ltac:(lia) ltac:(lia) Hne) as (j & Hj & Hc).
        exists (S j). split; [lia|].
        apply closesAt_cons_inv; [lia|]. unfold delta. now rewrite EL, ER.
    + destruct (IH (i + 1) depth ltac:(lia) ltac:(lia) Hne) as (j & Hj & Hc).
      exists (S j). split; [lia|].
      apply closesAt_cons_inv; [lia|]. unfold delta. rewrite EL, ER.
      now replace (depth + 0) with depth by lia.
Qed.

(** When the loop runs to the end, the depth has stayed above zero. *)
Lemma findEndParenFrom_none (s : jsstring) :
  forall i depth k,
    0 < depth -> 0 <= i ->
    findEndParenFrom s i depth = -1 ->
    0 < depth + depthOf (firstn k s).
Proof.
  induction s as [|c s IH]; intros i depth k Hd Hi He.
  - destruct k; simpl; lia.
  - destruct k as [|k]; [simpl; lia|].
    rewrite depthOf_firstn_cons. unfold delta. simpl in He.
    destruct (c =? LPAREN)%N.
    + specialize (IH (i + 1) (depth + 1) k ltac:(lia) ltac:(lia) He). lia.
    + destruct (c =? RPAREN)%N.
      * destruct (depth - 1 =? 0) eqn:E0; [lia|].
        apply Z.eqb_neq in E0.
        specialize (IH (i + 1) (depth - 1) k ltac:(lia) ltac:(lia) He). lia.
      * specialize (IH (i + 1) depth k ltac:(lia) ltac:(lia) He). lia.
Qed.

Lemma startsWith_cons (c : char) (s : jsstring) :
  startsWith c s = true -> exists rest, s = c :: rest.
Proof.
  destruct s as [|c' rest]; simpl; [discriminate|].
  intros H. apply N.eqb_eq in H. subst c'. now exists rest.
Qed.

Lemma matchingClose_closesAt (rest : jsstring) (j : nat) :
  matchingClose (LPAREN :: rest) j <->
  exists j', j = S j' /\ closesAt 1 rest j'.
Proof.
  unfold matchingClose, closesAt, depthAt. split.
  - intros (Hn & Hd & Hk). destruct j as [|j]; [discriminate|].
    exists j. split; [reflexivity|]. repeat split.
    + exact Hn.
    + rewrite depthOf_firstn_cons in Hd. exact Hd.
    + intros k Hle. specialize (Hk (S k) ltac:(lia)).
      rewrite depthOf_firstn_cons in Hk. exact Hk.
  - intros (j' & -> & Hn & Hd & Hk). repeat split.
    + exact Hn.
    + rewrite depthOf_firstn_cons. exact Hd.
    + intros k Hle. destruct k as [|k]; [lia|].
      specialize (Hk k ltac:(lia)). rewrite depthOf_firstn_cons. exact Hk.
Qed.

(** The loop finds the closing parenthesis that matches the first one. *)
Lemma findEndParen_matchingClose (s : jsstring) (j : nat) :
  startsWith LPAREN s = true ->
  matchingClose s j ->
  findEndParen s = Z.of_nat j.
Proof.
  intros Hs Hm. destruct (startsWith_cons _ _ Hs) as [rest ->].
  apply matchingClose_closesAt in Hm. destruct Hm as (j' & -> & Hc).
  unfold findEndParen. simpl.
  rewrite (findEndParenFrom_complete _ _ _ _ Hc). lia.
Qed.

(** What the loop finds is the matching closing parenthesis. *)
Lemma findEndParen_found (s : jsstring) :
  startsWith LPAREN s = true ->
  findEndParen s <> -1 ->
  exists j, findEndParen s = Z.of_nat j /\ matchingClose s j.
Proof.
  intros Hs Hne. destruct (startsWith_cons _ _ Hs) as [rest ->].
  unfold findEndParen in *. simpl in *.
  destruct (findEndParenFrom_sound rest 1 1 ltac:(lia) ltac:(lia) Hne)
    as (j & Hj & Hc).
  exists (S j). split; [lia|].
  apply matchingClose_closesAt. now exists j.
Qed.

(** Without a matching closing parenthesis the loop leaves [endParen]
    at -1. *)
Lemma findEndParen_unmatched (s : jsstring) :
  startsWith LPAREN s = true ->
  (forall j, ~ matchingClose s j) ->
  findEndParen s = -1.
Proof.
  intros Hs Hno.
  destruct (Z.eq_dec (findEndParen s) (-1)) as [E|E]; [exact E|].
  destruct (findEndParen_found s Hs E) as (j & _ & Hm).
  now destruct (Hno j).
Qed.

(** A balanced text that starts with ['('] has the matching [')']. *)
Lemma balanced_matchingClose (s : jsstring) :
  startsWith LPAREN s = true ->
  balanced s ->
  exists j, matchingClose s j.
Proof.
  intros Hs [Hb _].
  destruct (Z.eq_dec (findEndParen s) (-1)) as [E|E].
  - exfalso. destruct (startsWith_cons _ _ Hs) as [rest ->].
    unfold findEndParen in E. simpl in E.
    pose proof (findEndParenFrom_none rest 1 1 (List.length rest)
                  ltac:(lia) ltac:(lia) E) as H.
    rewrite firstn_all in H. change (1 + depthOf rest = 0) in Hb. lia.
  - destruct (findEndParen_found s Hs E) as (j & _ & Hm). now exists j.
Qed.

(* ===================================================================== *)
(** * Unmatched parentheses, the trailing semicolon, termination *)
(* ===================================================================== *)

(** White space behind a text that starts with ['('] is all that [trim]
    removes from it. *)
Lemma trim_paren_prefix (s : jsstring) :
  startsWith LPAREN s = true ->
  startsWith LPAREN (trim s) = true /\ exists ws, s = trim s ++ ws.
Proof.
  intros Hs. destruct (startsWith_cons _ _ Hs) as [rest ->].
  unfold trim. rewrite (trimStart_id (LPAREN :: rest)) by reflexivity.
  destruct (trimEnd_prefix (LPAREN :: rest)) as (ws & Hws & Hall).
  split; [|now exists ws].
  destruct (trimEnd (LPAREN :: rest)) as [|c t].
  - simpl in Hws. subst ws. apply Forall_inv in Hall. discriminate Hall.
  - injection Hws as <- _. reflexivity.
Qed.

Lemma matchingClose_prefix (t ws : jsstring) (j : nat) :
  matchingClose t j -> matchingClose (t ++ ws) j.
Proof.
  intros (Hn & Hd & Hk).
  assert (Hj : (j < List.length t)%nat)
    by (apply nth_error_Some; congruence).
  unfold matchingClose, depthAt in *. repeat split.
  - now rewrite nth_error_app1.
  - rewrite firstn_app.
    replace (S j - List.length t)%nat with O by lia.
    now rewrite app_nil_r.
  - intros k Hkj. rewrite firstn_app.
    replace (k - List.length t)%nat with O by lia.
    rewrite app_nil_r. now apply Hk.
Qed.

(** C2: let [s] be the input after the removal of the trailing semicolon
    (or that text trimmed, which is what [parseNode] scans). When [s]
    begins with ['('] and no closing parenthesis matches that ['('],
    [parseNewick] returns the node
    [{ children: [], name: null, length: 0 }]. The parser is a total
    function of its argument, so there is no fault and two runs on one
    input agree. *)
Theorem C2_unmatched_paren_fallback (newick s : jsstring) :
  s = replaceTrailingSemicolon newick
  \/ s = trim (replaceTrailingSemicolon newick) ->
  startsWith LPAREN s = true ->
  (forall j, ~ matchingClose s j) ->
  parseNewick newick = emptyNode.
Proof.
  intros Hcase Hs Hno.
  assert (H : startsWith LPAREN (trim (replaceTrailingSemicolon newick)) = true
              /\ forall j,
                   ~ matchingClose (trim (replaceTrailingSemicolon newick)) j).
  { destruct Hcase as [-> | ->]; [|now split].
    destruct (trim_paren_prefix _ Hs) as (Hs' & ws & Hws).
    split; [exact Hs'|]. intros j Hm. apply (Hno j).
    rewrite Hws. now apply matchingClose_prefix. }
  destruct H as [Hs' Hno'].
  unfold parseNewick. rewrite parseNode_eq. cbv zeta.
  rewrite trim_idempotent, Hs'.
  now rewrite (findEndParen_unmatched _ Hs' Hno').
Qed.

(** The input ["(A:1,B:2"] of the specification. *)
Lemma C2_unmatched_paren_fallback_witness :
  parseNewick (js "(A:1,B:2") = Node [] None zero.
Proof.
  apply (C2_unmatched_paren_fallback (js "(A:1,B:2") (js "(A:1,B:2")).
  - left. reflexivity.
  - reflexivity.
  - intros j (Hn & Hd & _).
    do 8 (destruct j as [|j]; [vm_compute in Hn; discriminate Hn|]).
    destruct j; discriminate Hn.
Defined.

Lemma replaceTrailingSemicolon_snoc (s : jsstring) :
  replaceTrailingSemicolon (s ++ [SEMICOLON]) = s.
Proof.
  unfold replaceTrailingSemicolon. rewrite rev_app_distr. simpl.
  apply rev_involutive.
Qed.

Lemma replaceTrailingSemicolon_other (s : jsstring) :
  endsWith SEMICOLON s = false -> replaceTrailingSemicolon s = s.
Proof.
  unfold endsWith, replaceTrailingSemicolon.
  destruct (rev s) as [|c r]; [reflexivity|]. now intros ->.
Qed.

(** C8: [parseNewick] removes one trailing [';'] and no more. A text
    that does not end in [';'] parses the same with and without one
    appended, and as [parseNode] parses it. Of any text that ends in
    [';'], [parseNewick] drops exactly the last code unit and parses
    the rest, even when the rest ends in [';'] too: a second semicolon
    stays in the text that is parsed. *)
Theorem C8_single_trailing_semicolon (s : jsstring) :
  endsWith SEMICOLON s = false ->
  parseNewick (s ++ [SEMICOLON]) = parseNewick s
  /\ parseNewick s = parseNode s
  /\ (forall t, parseNewick (t ++ [SEMICOLON]) = parseNode t)
  /\ parseNewick (s ++ [SEMICOLON; SEMICOLON]) = parseNode (s ++ [SEMICOLON]).
Proof.
  intros H.
  assert (Hone : forall t, parseNewick (t ++ [SEMICOLON]) = parseNode t).
  { intros t. unfold parseNewick.
    now rewrite replaceTrailingSemicolon_snoc, parseNode_trim. }
  assert (Hnone : parseNewick s = parseNode s).
  { unfold parseNewick.
    now rewrite replaceTrailingSemicolon_other, parseNode_trim. }
  split; [now rewrite Hone, Hnone|]. split; [exact Hnone|].
  split; [exact Hone|].
  change (s ++ [SEMICOLON; SEMICOLON]) with (s ++ [SEMICOLON] ++ [SEMICOLON]).
  rewrite app_assoc. apply Hone.
Qed.

(** For ["(A,B)"]: one semicolon is dropped, and of two only one, so
    that the root of ["(A,B);;"] has the label [";"]. *)
Lemma C8_single_trailing_semicolon_witness :
  parseNewick (js "(A,B);") = parseNewick (js "(A,B)")
  /\ node_name (parseNewick (js "(A,B)")) = Some (js "Internal")
  /\ node_name (parseNewick (js "(A,B);;")) = Some (js ";").
Proof.
  destruct (C8_single_trailing_semicolon (js "(A,B)") eq_refl)
    as (H1 & H2 & _ & H4).
  split; [exact H1|]. split.
  - rewrite H2. reflexivity.
  - change (js "(A,B);;") with (js "(A,B)" ++ [SEMICOLON; SEMICOLON]).
    rewrite H4. reflexivity.
Defined.

Lemma trim_infix (s : jsstring) : exists a b, s = a ++ trim s ++ b.
Proof.
  destruct (trimStart_suffix s) as (a & Ha & _).
  destruct (trimEnd_prefix (trimStart s)) as (b & Hb & _).
  exists a, b. unfold trim. now rewrite <- Hb.
Qed.

Lemma pushTrimmed_infix (children : list jsstring) (current c : jsstring) :
  In c (pushTrimmed children current) ->
  In c children \/ exists a b, current = a ++ c ++ b.
Proof.
  unfold pushTrimmed. destruct (nonEmpty (trim current)); [|tauto].
  intros H. apply in_app_or in H. destruct H as [H|[<-|[]]]; [tauto|].
  right. apply trim_infix.
Qed.

(** Every child string is a part of the scanned text. *)
Lemma splitChildrenFrom_infix (s : jsstring) :
  forall depth current children c,
    In c (splitChildrenFrom s depth current children) ->
    In c children \/ exists a b, current ++ s = a ++ c ++ b.
Proof.
  induction s as [|x s IH]; intros depth current children c H.
  - rewrite app_nil_r. now apply pushTrimmed_infix.
  - assert (Hstep : forall d,
               In c (splitChildrenFrom s d (current ++ [x]) children) ->
               In c children \/ exists a b, current ++ x :: s = a ++ c ++ b).
    { intros d Hd. apply IH in Hd. now rewrite <- app_assoc in Hd. }
    cbn [splitChildrenFrom] in H.
    destruct (x =? LPAREN)%N; [now apply (Hstep (depth + 1))|].
    destruct (x =? RPAREN)%N; [now apply (Hstep (depth - 1))|].
    destruct ((x =? COMMA)%N && (depth =? 0)); [|now apply (Hstep depth)].
    apply IH in H. destruct H as [H|(a & b & H)].
    + apply pushTrimmed_infix in H. destruct H as [H|(a & b & ->)]; [tauto|].
      right. exists a, (b ++ x :: s). now rewrite <- !app_assoc.
    + right. exists (current ++ x :: a), b. simpl in H. rewrite H.
      now rewrite <- app_assoc.
Qed.

Lemma recursiveCall_shorter (child str : jsstring) :
  recursiveCall child str -> (List.length child < List.length str)%nat.
Proof.
  intros (_ & Hne & Hin).
  eapply child_shorter; [reflexivity| |exact Hin].
  now apply Z.eqb_neq.
Qed.

(** C9: [parseNode] is defined by well-founded recursion on the length of
    its argument, so it returns a tree for every string. Its recursive
    calls are those on the child substrings; each of them is a part of
    the text between the first ['('] and the [')'] that the scan found,
    and strictly shorter than the argument; hence no chain of recursive
    calls is infinite. *)
Theorem C9_parseNode_terminates :
  (forall str,
      startsWith LPAREN (trim str) = true ->
      findEndParen (trim str) <> -1 ->
      node_children (parseNode str)
      = List.map parseNode
          (splitChildren (substring 1 (findEndParen (trim str)) (trim str))))
  /\ (forall str,
         startsWith LPAREN (trim str) = false \/ findEndParen (trim str) = -1 ->
         node_children (parseNode str) = [])
  /\ (forall child str,
         recursiveCall child str ->
         exists before after,
           substring 1 (findEndParen (trim str)) (trim str)
           = before ++ child ++ after)
  /\ (forall child str,
         recursiveCall child str ->
         (List.length child < List.length str)%nat)
  /\ well_founded recursiveCall.
Proof.
  split; [|split; [|split; [|split]]].
  - intros str Hs Hne. rewrite parseNode_eq. cbv zeta. rewrite Hs.
    apply Z.eqb_neq in Hne. now rewrite Hne.
  - intros str H. rewrite parseNode_eq. cbv zeta.
    destruct (startsWith LPAREN (trim str)) eqn:Hs.
    + destruct H as [H|H]; [discriminate|]. now rewrite H.
    + unfold parseLeaf. now destruct (0 <? indexOf COLON (trim str)).
  - intros child str (_ & _ & Hin).
    apply splitChildrenFrom_infix in Hin. destruct Hin as [[]|Hin].
    exact Hin.
  - exact recursiveCall_shorter.
  - apply (well_founded_lt_compat _ (@List.length char)).
    intros child str H. now apply recursiveCall_shorter.
Qed.

(* ===================================================================== *)
(** * Branch lengths are never NaN *)
(* ===================================================================== *)

Lemma orZero_not_NaN (x : number) : isNaN (orZero x) = false.
Proof. now destruct x. Qed.

Lemma internalLabel_not_NaN (afterParen : jsstring) :
  isNaN (snd (internalLabel afterParen)) = false.
Proof.
  unfold internalLabel.
  destruct (0 <? indexOf COLON afterParen); [apply orZero_not_NaN|].
  destruct (indexOf COLON afterParen =? 0); [apply orZero_not_NaN|reflexivity].
Qed.

Lemma parseLeaf_not_NaN (str : jsstring) :
  AllNodes (fun t => isNaN (node_length t) = false) (parseLeaf str).
Proof.
  unfold parseLeaf. destruct (0 <? indexOf COLON str); constructor;
    simpl; auto using orZero_not_NaN.
Qed.

Lemma parseNode_not_NaN (n : nat) :
  forall str, (List.length str < n)%nat ->
    AllNodes (fun t => isNaN (node_length t) = false) (parseNode str).
Proof.
  induction n as [|n IH]; intros str Hlen; [lia|].
  rewrite parseNode_eq. cbv zeta.
  destruct (startsWith LPAREN (trim str)); [|apply parseLeaf_not_NaN].
  destruct (findEndParen (trim str) =? -1) eqn:He.
  - constructor; [reflexivity|constructor].
  - constructor; [apply internalLabel_not_NaN|].
    apply Forall_forall. intros t Ht. apply in_map_iff in Ht.
    destruct Ht as (child & <- & Hin). apply IH.
    pose proof (child_shorter str child _ eq_refl He Hin). lia.
Qed.

(** C10: in the tree that [parseNewick] returns, the [length] of every
    node is a number other than NaN: a branch-length text that is absent
    or does not parse gives 0. *)
Theorem C10_length_never_NaN (newick : jsstring) :
  AllNodes (fun t => isNaN (node_length t) = false) (parseNewick newick)
  /\ forall x, isNaN x = true -> orZero x = zero.
Proof.
  split; [|now intros [ | | | ]].
  unfold parseNewick.
  apply (parseNode_not_NaN
           (S (List.length (trim (replaceTrailingSemicolon newick))))).
  lia.
Qed.

(* ===================================================================== *)
(** * Rendering *)
(* ===================================================================== *)

Lemma displayLength_nonZero (x : number) :
  displayLength x
  = if nonZero x then js " (" ++ toFixed x 4 ++ js ")" else [].
Proof. now destruct x. Qed.

Lemma nodeLine_specLine (tree : TreeNode) (prefix : jsstring) (isLast : bool) :
  nodeLine tree prefix isLast = specLine tree prefix isLast ++ [NEWLINE].
Proof.
  unfold nodeLine, specLine. rewrite displayLength_nonZero.
  rewrite <- !app_assoc. do 2 f_equal.
  destruct tree as [children [[|c n]|] length]; reflexivity.
Qed.

(** The [forEach] loop: the test [index === tree.children.length - 1]
    holds for the child that has no sibling after it. *)
Lemma forEach_siblings (below : jsstring) (total : Z) (rest : list TreeNode) :
  forall index,
    index + Z.of_nat (List.length rest) = total ->
    Forall (fun c => forall prefix isLast,
                renderTreeAscii c prefix isLast
                = joinLines (specLines c prefix isLast)) rest ->
    (fix forEach (rest : list TreeNode) (index : Z) : jsstring :=
       match rest with
       | [] => []
       | child :: rest' =>
           renderTreeAscii child below (index =? total - 1)
           ++ forEach rest' (index + 1)
       end) rest index
    = joinLines
        ((fix siblings (cs : list TreeNode) : list jsstring :=
            match cs with
            | [] => []
            | c :: rest =>
                specLines c below (match rest with [] => true | _ => false end)
                ++ siblings rest
            end) rest).
Proof.
  induction rest as [|c rest IH]; intros index Hidx Hall; [reflexivity|].
  apply Forall_cons_iff in Hall. destruct Hall as [Hc Hrest].
  cbn [List.length] in Hidx.
  rewrite (IH (index + 1)); [|lia|exact Hrest].
  rewrite Hc. unfold joinLines. rewrite map_app, concat_app.
  do 4 f_equal.
  destruct rest; cbn [List.length] in Hidx.
  - apply Z.eqb_eq. lia.
  - apply Z.eqb_neq. lia.
Qed.

Lemma renderTreeAscii_specLines (tree : TreeNode) :
  forall prefix isLast,
    renderTreeAscii tree prefix isLast = joinLines (specLines tree prefix isLast).
Proof.
  induction tree as [children name length IH] using TreeNode_ind'.
  intros prefix isLast.
  cbn [renderTreeAscii specLines].
  rewrite nodeLine_specLine.
  unfold joinLines at 1. cbn [List.map List.concat]. fold joinLines.
  rewrite (forEach_siblings (newPrefix prefix isLast)
             (Z.of_nat (List.length children)) children 0 ltac:(lia) IH).
  unfold newPrefix.
  destruct children as [|c cs]; [cbn; now rewrite app_nil_r|].
  reflexivity.
Qed.

Lemma specLines_length (tree : TreeNode) :
  forall prefix isLast,
    List.length (specLines tree prefix isLast) = size tree.
Proof.
  induction tree as [children name length IH] using TreeNode_ind'.
  intros prefix isLast. cbn [specLines size List.length]. f_equal.
  generalize (prefix ++ (if isLast then INDENT else BAR_INDENT)) as below.
  induction IH as [|c cs Hc _ IHcs]; intros below; [reflexivity|].
  rewrite length_app, Hc, IHcs. reflexivity.
Qed.

Lemma uintChars_digits (u : Decimal.uint) :
  Forall (fun c => isDigit c = true) (uintChars u).
Proof. induction u; simpl; constructor; auto. Qed.

Lemma uintChars_value (u : Decimal.uint) :
  forall d,
    fold_left (fun acc c => 10 * acc + digitValue c) (uintChars u)
              (Z.of_N (DecimalPos.Unsigned.of_lu d))
    = Z.of_N (DecimalPos.Unsigned.of_lu (Decimal.revapp u d)).
Proof.
  induction u as [|u IH|u IH|u IH|u IH|u IH|u IH|u IH|u IH|u IH|u IH];
    intros d; [reflexivity|..];
    cbn [uintChars fold_left Decimal.revapp]; rewrite <- IH; f_equal;
    cbn [DecimalPos.Unsigned.of_lu]; unfold digitValue; lia.
Qed.

(** The digits that are printed for a number denote it. *)
Lemma decimalDigits_value (n : Z) : 0 <= n -> digitsValue (decimalDigits n) = n.
Proof.
  intros Hn. unfold digitsValue, decimalDigits.
  etransitivity;
    [exact (uintChars_value (N.to_uint (Z.to_N n)) Decimal.Nil)|].
  change (Decimal.revapp (N.to_uint (Z.to_N n)) Decimal.Nil)
    with (Decimal.rev (N.to_uint (Z.to_N n))).
  rewrite <- DecimalPos.Unsigned.of_uint_alt.
  change (Pos.of_uint (N.to_uint (Z.to_N n)))
    with (N.of_uint (N.to_uint (Z.to_N n))).
  rewrite DecimalN.Unsigned.of_to. lia.
Qed.

Lemma digitsValue_zeros (k : nat) (ds : jsstring) :
  digitsValue (repeat 48%N k ++ ds) = digitsValue ds.
Proof.
  unfold digitsValue. rewrite fold_left_app. f_equal.
  induction k as [|k IH]; [reflexivity|exact IH].
Qed.

Lemma nzhead_head (u : Decimal.uint) :
  match Decimal.nzhead u with Decimal.D0 _ => False | _ => True end.
Proof. induction u; simpl; auto. Qed.

(** The digits of a number start with a zero only when they are ["0"]. *)
Lemma decimalDigits_head (n : Z) :
  hd_error (decimalDigits n) = Some 48%N -> decimalDigits n = [48%N].
Proof.
  unfold decimalDigits.
  pose proof (DecimalN.Unsigned.to_of (N.to_uint (Z.to_N n))) as H.
  rewrite DecimalN.Unsigned.of_to in H.
  rewrite H. unfold Decimal.unorm.
  pose proof (nzhead_head (N.to_uint (Z.to_N n))) as Hz.
  destruct (Decimal.nzhead (N.to_uint (Z.to_N n)));
    try discriminate; [reflexivity|destruct Hz].
Qed.

Lemma decimalDigits_nonempty (n : Z) : decimalDigits n <> [].
Proof.
  unfold decimalDigits.
  pose proof (DecimalN.Unsigned.to_of (N.to_uint (Z.to_N n))) as H.
  rewrite DecimalN.Unsigned.of_to in H.
  rewrite H. unfold Decimal.unorm.
  destruct (Decimal.nzhead (N.to_uint (Z.to_N n))); discriminate.
Qed.

(** [toFixed(4)] below [10^21]: digits, a point, and four more digits;
    the digits denote the number that is printed, and there is no zero
    in front other than the one before the point. *)
Lemma fixedDigits_four (n : Z) :
  0 <= n ->
  exists whole frac,
    fixedDigits n 4 = whole ++ ch "." :: frac
    /\ whole <> [] /\ List.length frac = 4%nat
    /\ Forall (fun c => isDigit c = true) (whole ++ frac)
    /\ (whole = js "0" \/ hd_error whole <> Some 48%N)
    /\ digitsValue (whole ++ frac) = n.
Proof.
  intros Hn. unfold fixedDigits.
  set (m := repeat 48%N (5 - List.length (decimalDigits n)) ++ decimalDigits n).
  assert (Hlen : (5 <= List.length m)%nat).
  { unfold m. rewrite length_app, repeat_length. unfold jsstring, char. lia. }
  exists (firstn (List.length m - 4) m), (skipn (List.length m - 4) m).
  split; [reflexivity|]. split; [|split; [|split; [|split]]].
  - intros E. apply (f_equal (@List.length char)) in E.
    rewrite length_firstn in E. simpl in E. lia.
  - rewrite length_skipn. lia.
  - rewrite firstn_skipn. unfold m. apply Forall_app. split.
    + apply Forall_forall. intros c Hc. apply repeat_spec in Hc. now subst c.
    + apply uintChars_digits.
  - pose proof (decimalDigits_nonempty n) as Hne.
    pose proof (decimalDigits_head n) as Hhd.
    destruct (Nat.le_gt_cases 5 (List.length (decimalDigits n))) as [Hl|Hl].
    + right.
      assert (Em : m = decimalDigits n).
      { unfold m.
        now replace (5 - List.length (decimalDigits n))%nat with O
          by (unfold jsstring, char in *; lia). }
      rewrite Em. clear Em Hlen m.
      destruct (decimalDigits n) as [|c ds]; [now destruct Hne|].
      destruct ds as [|d1 [|d2 [|d3 [|d4 ds]]]]; try (cbn in Hl; lia).
      cbn. intros E. specialize (Hhd E). discriminate Hhd.
    + left.
      assert (El : List.length m = 5%nat).
      { unfold m. rewrite length_app, repeat_length.
        unfold jsstring, char in *. lia. }
      rewrite El. unfold m.
      destruct (5 - List.length (decimalDigits n))%nat eqn:E;
        [unfold jsstring, char in *; lia|].
      reflexivity.
  - rewrite firstn_skipn. unfold m. rewrite digitsValue_zeros.
    now apply decimalDigits_value.
Qed.

Lemma denominator_positive (e : Z) : 0 < denominator e.
Proof. unfold denominator. apply Z.pow_pos_nonneg; lia. Qed.

Lemma numerator_positive (m : positive) (e : Z) : 0 < numerator m e.
Proof.
  unfold numerator. apply Z.mul_pos_pos; [lia|].
  apply Z.pow_pos_nonneg; lia.
Qed.

(** [scaledNearest m e f] is the integer nearest to [m * 2^e * 10^f],
    the larger one of two. *)
Lemma scaledNearest_nearest (m : positive) (e : Z) (f : nat) :
  0 <= scaledNearest m e f
  /\ 2 * (10 ^ Z.of_nat f * numerator m e) - denominator e
     < 2 * (scaledNearest m e f * denominator e)
  /\ 2 * (scaledNearest m e f * denominator e)
     <= 2 * (10 ^ Z.of_nat f * numerator m e) + denominator e.
Proof.
  unfold scaledNearest.
  pose proof (denominator_positive e) as Hd.
  pose proof (numerator_positive m e) as Hn.
  assert (Hp : 0 < 10 ^ Z.of_nat f) by (apply Z.pow_pos_nonneg; lia).
  set (a := 2 * numerator m e * 10 ^ Z.of_nat f + denominator e).
  assert (Ha : 0 <= a) by (unfold a; nia).
  pose proof (Z.div_mod a (2 * denominator e) ltac:(lia)) as Hdm.
  pose proof (Z.mod_pos_bound a (2 * denominator e) ltac:(lia)) as Hmod.
  split; [apply Z.div_pos; lia|].
  unfold a in *. nia.
Qed.

Lemma digit_not_newline (c : char) : isDigit c = true -> c <> NEWLINE.
Proof.
  unfold isDigit, NEWLINE. intros H ->. discriminate H.
Qed.

Lemma digits_single_line (ds : jsstring) :
  Forall (fun c => isDigit c = true) ds -> ~ In NEWLINE ds.
Proof.
  intros H Hin. rewrite Forall_forall in H.
  now apply (digit_not_newline _ (H _ Hin)).
Qed.

Lemma decimalDigits_single_line (n : Z) : ~ In NEWLINE (decimalDigits n).
Proof. apply digits_single_line, uintChars_digits. Qed.

Lemma fixedDigits_single_line (n : Z) (f : nat) :
  ~ In NEWLINE (fixedDigits n f).
Proof.
  unfold fixedDigits. destruct f as [|f]; [apply decimalDigits_single_line|].
  set (m := repeat 48%N (S (S f) - List.length (decimalDigits n))
            ++ decimalDigits n).
  assert (Hm : ~ In NEWLINE m).
  { unfold m. intros H. apply in_app_or in H. destruct H as [H|H].
    - apply repeat_spec in H. discriminate H.
    - now apply (decimalDigits_single_line n). }
  intros H. apply Hm.
  rewrite <- (firstn_skipn (List.length m - S f) m).
  apply in_app_or in H. apply in_or_app.
  destruct H as [H|[H|H]]; [now left|discriminate H|now right].
Qed.

Lemma dropTrailingZeros_incl (ds : jsstring) (c : char) :
  In c (dropTrailingZeros ds) -> In c ds.
Proof.
  induction ds as [|d ds IH]; [intros []|].
  cbn [dropTrailingZeros].
  destruct (dropTrailingZeros ds) as [|x xs].
  - destruct (d =? 48)%N; [intros []|]. intros [->|[]]. now left.
  - intros [->|H]; [now left|]. right. now apply IH.
Qed.

Lemma largeToString_single_line (m : positive) (e : Z) :
  ~ In NEWLINE (largeToString m e).
Proof.
  unfold largeToString. destruct (shortestFrom m e 1 17) as [s p].
  pose proof (decimalDigits_single_line s) as Hs.
  assert (Hd : ~ In NEWLINE (dropTrailingZeros (decimalDigits s))).
  { intros H. now apply Hs, dropTrailingZeros_incl. }
  pose proof (decimalDigits_single_line (numDigits s + p - 1)) as He.
  destruct (dropTrailingZeros (decimalDigits s)) as [|d [|d' ds]].
  - intros [H|[]]. discriminate H.
  - intros [H|[H|[H|H]]]; try discriminate H;
      [apply Hd; now left|now apply He].
  - intros [H|[H|H]]; [apply Hd; now left|discriminate H|].
    change (d' :: ds ++ js "e+" ++ decimalDigits (numDigits s + p - 1))
      with ((d' :: ds) ++ js "e+" ++ decimalDigits (numDigits s + p - 1)) in H.
    apply in_app_or in H. destruct H as [H|[H|[H|H]]]; try discriminate H;
      [apply Hd; now right|now apply He].
Qed.

(** [toFixed] prints no line feed. *)
Lemma toFixed_single_line (x : number) (f : nat) : ~ In NEWLINE (toFixed x f).
Proof.
  destruct x as [s|s| |s m e]; cbn [toFixed].
  - apply fixedDigits_single_line.
  - destruct s; intros H; repeat (destruct H as [H|H]; [discriminate H|]);
      exact H.
  - intros H; repeat (destruct H as [H|H]; [discriminate H|]); exact H.
  - intros H. apply in_app_or in H. destruct H as [H|H].
    + destruct s; [destruct H as [H|[]]; discriminate H|destruct H].
    + destruct (10 ^ 21 * denominator e <=? numerator m e);
        [now apply (largeToString_single_line m e)
        |now apply (fixedDigits_single_line (scaledNearest m e f) f)].
Qed.

Lemma specLine_single_line (tree : TreeNode) (prefix : jsstring)
  (isLast : bool) :
  ~ In NEWLINE prefix -> singleLineName tree ->
  ~ In NEWLINE (specLine tree prefix isLast).
Proof.
  intros Hp Hn H. unfold specLine in H.
  apply in_app_or in H. destruct H as [H|H]; [now apply Hp|].
  apply in_app_or in H. destruct H as [H|H].
  { destruct isLast; repeat (destruct H as [H|H]; [discriminate H|]);
      exact H. }
  apply in_app_or in H. destruct H as [H|H].
  { unfold singleLineName in Hn.
    destruct (node_name tree) as [[|c n]|]; [| now apply Hn|];
      repeat (destruct H as [H|H]; [discriminate H|]); exact H. }
  destruct (nonZero (node_length tree)); [|exact H].
  change (js " (") with [32%N; 40%N] in H. change (js ")") with [41%N] in H.
  cbn [app] in H. destruct H as [H|[H|H]]; try discriminate H.
  apply in_app_or in H. destruct H as [H|H].
  - now apply (toFixed_single_line (node_length tree) 4).
  - destruct H as [H|H]; [discriminate H|exact H].
Qed.

Lemma specLines_single_line (tree : TreeNode) :
  forall prefix isLast,
    ~ In NEWLINE prefix -> AllNodes singleLineName tree ->
    Forall (fun l => ~ In NEWLINE l) (specLines tree prefix isLast).
Proof.
  induction tree as [children name length IH] using TreeNode_ind'.
  intros prefix isLast Hp Hall.
  assert (Hnode : singleLineName (Node children name length)
                  /\ Forall (AllNodes singleLineName) children).
  { inversion Hall. now split. }
  destruct Hnode as [Hn Hcs].
  cbn [specLines]. constructor; [now apply specLine_single_line|].
  assert (Hb : ~ In NEWLINE (prefix ++ (if isLast then INDENT else BAR_INDENT))).
  { intros H. apply in_app_or in H. destruct H as [H|H]; [now apply Hp|].
    destruct isLast; repeat (destruct H as [H|H]; [discriminate H|]);
      exact H. }
  revert Hb. generalize (prefix ++ (if isLast then INDENT else BAR_INDENT)).
  intros below Hb.
  induction IH as [|c cs Hc _ IHcs]; [constructor|].
  apply Forall_cons_iff in Hcs. destruct Hcs as [Hc' Hcs].
  apply Forall_app. split; [now apply Hc|now apply IHcs].
Qed.

Lemma splitFrom_piece (sep : char) (p rest : jsstring) :
  forall current,
    ~ In sep p ->
    splitFrom sep (p ++ rest) current = splitFrom sep rest (current ++ p).
Proof.
  induction p as [|c p IH]; intros current Hp.
  - simpl. now rewrite app_nil_r.
  - cbn [app splitFrom].
    destruct (N.eqb_spec c sep) as [->|Hne]; [destruct Hp; now left|].
    rewrite IH by (intros H; apply Hp; now right).
    now rewrite <- app_assoc.
Qed.

(** Lines that hold no line feed are the pieces into which [split]
    cuts their text, before the empty piece behind the last line feed. *)
Lemma split_joinLines (lines : list jsstring) :
  Forall (fun l => ~ In NEWLINE l) lines ->
  split NEWLINE (joinLines lines) = lines ++ [[]].
Proof.
  unfold split, joinLines.
  induction 1 as [|l lines Hl _ IH]; [reflexivity|].
  cbn [List.map List.concat]. rewrite <- app_assoc.
  rewrite (splitFrom_piece NEWLINE l _ [] Hl). cbn [app splitFrom].
  rewrite N.eqb_refl. cbn [app]. f_equal. exact IH.
Qed.

(** The text lines of a rendering, for names without line feeds. *)
Lemma renderTreeAscii_lines (tree : TreeNode) (prefix : jsstring)
  (isLast : bool) :
  ~ In NEWLINE prefix -> AllNodes singleLineName tree ->
  split NEWLINE (renderTreeAscii tree prefix isLast)
  = specLines tree prefix isLast ++ [[]].
Proof.
  intros Hp Hall. rewrite renderTreeAscii_specLines.
  now apply split_joinLines, specLines_single_line.
Qed.

(** C6: [renderTreeAscii] writes one entry per node, in depth-first
    pre-order, each ended by a line feed. The entry of a node is the
    prefix, then ["└── "] for a last sibling and ["├── "] otherwise,
    then the name (the placeholder when the name is [null] or empty),
    then, when the branch length is a number other than zero and not
    NaN, [" ("], the length printed by [toFixed(4)] and [")"]. The
    children follow under the prefix extended by four spaces below a
    last sibling and by ["│   "] otherwise. The entry of a node whose
    name holds no line feed is one line, and when no name of the tree
    holds one, the entries are the lines of the text. For a
    finite length below [10^21], [toFixed(4)] prints the sign, digits
    without a needless zero in front, a point, and four more digits;
    the digits denote the integer nearest to the length times [10^4],
    the larger one of two. *)
Theorem C6_renderTreeAscii_lines (tree : TreeNode) (prefix : jsstring)
  (isLast : bool) :
  renderTreeAscii tree prefix isLast = joinLines (specLines tree prefix isLast)
  /\ List.length (specLines tree prefix isLast) = size tree
  /\ specLine tree prefix isLast
     = prefix
       ++ (if isLast then LAST_CONNECTOR else MID_CONNECTOR)
       ++ match node_name tree with
          | Some (c :: n) => c :: n
          | Some [] | None => PLACEHOLDER
          end
       ++ (if isZero (node_length tree) || isNaN (node_length tree) then []
           else js " (" ++ toFixed (node_length tree) 4 ++ js ")")
  /\ (~ In NEWLINE prefix -> singleLineName tree ->
      ~ In NEWLINE (specLine tree prefix isLast))
  /\ (~ In NEWLINE prefix -> AllNodes singleLineName tree ->
      split NEWLINE (renderTreeAscii tree prefix isLast)
      = specLines tree prefix isLast ++ [[]])
  /\ forall s m e,
       node_length tree = S754_finite s m e ->
       numerator m e < 10 ^ 21 * denominator e ->
       exists whole frac,
         toFixed (node_length tree) 4
         = (if s then js "-" else []) ++ whole ++ ch "." :: frac
         /\ whole <> [] /\ List.length frac = 4%nat
         /\ Forall (fun c => isDigit c = true) (whole ++ frac)
         /\ (whole = js "0" \/ hd_error whole <> Some 48%N)
         /\ 2 * (10 ^ 4 * numerator m e) - denominator e
            < 2 * (digitsValue (whole ++ frac) * denominator e)
         /\ 2 * (digitsValue (whole ++ frac) * denominator e)
            <= 2 * (10 ^ 4 * numerator m e) + denominator e.
Proof.
  split; [apply renderTreeAscii_specLines|].
  split; [apply specLines_length|]. split; [|split; [|split]].
  - unfold specLine. do 3 f_equal. now destruct (node_length tree).
  - apply specLine_single_line.
  - apply renderTreeAscii_lines.
  - intros s m e -> Hsmall. unfold toFixed.
    replace (10 ^ 21 * denominator e <=? numerator m e) with false
      by (symmetry; apply Z.leb_gt; exact Hsmall).
    destruct (scaledNearest_nearest m e 4) as (Hpos & Hlo & Hhi).
    destruct (fixedDigits_four (scaledNearest m e 4) Hpos)
      as (whole & frac & -> & Hw & Hf & Hd & Hz & Hv).
    exists whole, frac. rewrite Hv.
    split; [reflexivity|]. split; [exact Hw|]. split; [exact Hf|].
    split; [exact Hd|]. split; [exact Hz|]. split; [exact Hlo|exact Hhi].
Qed.

Lemma in_middle (c : char) (a b : jsstring) : In c (a ++ c :: b).
Proof. apply in_or_app. right. now left. Qed.

(** C6, counterexamples. The parser reads ["A:1e21"] as a leaf of
    length [10^21], which [toFixed(4)] prints as [1e+21], without a
    decimal place. A length that is NaN is other than zero and is not
    printed. The empty name is a name and is replaced by the
    placeholder. The name of the leaf read from [A], a line feed, [B]
    spans two lines. *)
Lemma C6_renderTreeAscii_counterexample :
  (render (parseNewick (js "A:1e21"))
   = LAST_CONNECTOR ++ js "A (1e+21)" ++ [NEWLINE]
   /\ ~ nodeLineAsStated (parseNewick (js "A:1e21")) [] true)
  /\ ~ nodeLineAsStated (Node [] (Some (js "A")) S754_nan) [] true
  /\ ~ nodeLineAsStated (Node [] (Some []) zero) [] true
  /\ (render (parseNewick (js "A" ++ NEWLINE :: js "B"))
      = LAST_CONNECTOR ++ js "A" ++ NEWLINE :: js "B" ++ [NEWLINE]
      /\ ~ nodeLineAsStated (parseNewick (js "A" ++ NEWLINE :: js "B")) [] true).
Proof.
  split; [split; [vm_compute; reflexivity|]|split; [|split; [|split]]].
  - intros (annotation & rest & Hr & _ & _ & Hd).
    destruct (Hd eq_refl)
      as (d & -> & sign & whole & frac & -> & _ & _ & _ & _).
    assert (Hin : In (ch ".") (renderTreeAscii (parseNewick (js "A:1e21")) [] true)).
    { rewrite Hr. do 3 (apply in_or_app; right).
      apply in_or_app. left. apply in_or_app. right.
      apply in_or_app. left. do 2 (apply in_or_app; right). now left. }
    vm_compute in Hin.
    repeat (destruct Hin as [Hin|Hin]; [discriminate Hin|]). exact Hin.
  - intros (annotation & rest & Hr & _ & _ & Hd).
    destruct (Hd eq_refl) as (d & -> & _). discriminate Hr.
  - intros (annotation & rest & Hr & _ & Hz & _).
    rewrite (Hz eq_refl) in Hr. discriminate Hr.
  - vm_compute. reflexivity.
  - intros (annotation & rest & _ & Hn & _). apply Hn.
    change (parseNewick (js "A" ++ NEWLINE :: js "B"))
      with (Node [] (Some (js "A" ++ NEWLINE :: js "B")) zero).
    cbn [node_name]. apply in_or_app. left. apply in_middle.
Qed.

(** C7: the rendering of the tree parsed from ["((A:0.1,B:0.2):0.0);"]:
    the line of the top node has the connector ["└── "]; below it, two
    levels in, leaf A has ["├── "] and the annotation [(0.1000)], and
    leaf B has ["└── "] and [(0.2000)]. *)
Theorem C7_render_two_leaf_tree :
  render (parseNewick (js "((A:0.1,B:0.2):0.0);"))
  = LAST_CONNECTOR ++ js "Internal" ++ [NEWLINE]
    ++ INDENT ++ LAST_CONNECTOR ++ js "Internal" ++ [NEWLINE]
    ++ INDENT ++ INDENT ++ MID_CONNECTOR ++ js "A (0.1000)" ++ [NEWLINE]
    ++ INDENT ++ INDENT ++ LAST_CONNECTOR ++ js "B (0.2000)" ++ [NEWLINE].
Proof. vm_compute. reflexivity. Qed.

(* ===================================================================== *)
(** * Names and branch lengths *)
(* ===================================================================== *)

Lemma indexOfFrom_first (c : char) (a b : jsstring) (i : Z) :
  ~ In c a -> indexOfFrom c (a ++ c :: b) i = i + Z.of_nat (List.length a).
Proof.
  revert i. induction a as [|x a IH]; intros i Hn; simpl.
  - rewrite N.eqb_refl. lia.
  - destruct (x =? c)%N eqn:E.
    + apply N.eqb_eq in E. subst x. exfalso. apply Hn. now left.
    + rewrite IH; [lia|]. intros H. apply Hn. now right.
Qed.

Lemma indexOfFrom_absent (c : char) (s : jsstring) (i : Z) :
  ~ In c s -> indexOfFrom c s i = -1.
Proof.
  revert i. induction s as [|x s IH]; intros i Hn; simpl; [reflexivity|].
  destruct (x =? c)%N eqn:E.
  - apply N.eqb_eq in E. subst x. exfalso. apply Hn. now left.
  - apply IH. intros H. apply Hn. now right.
Qed.

(** The text in front of the first [c]. *)
Lemma indexOf_first (c : char) (a b : jsstring) :
  ~ In c a -> indexOf c (a ++ c :: b) = Z.of_nat (List.length a).
Proof. intros H. unfold indexOf. now rewrite indexOfFrom_first. Qed.

Lemma indexOf_absent (c : char) (s : jsstring) :
  ~ In c s -> indexOf c s = -1.
Proof. apply indexOfFrom_absent. Qed.

Lemma substring_prefix (a b : jsstring) :
  substring 0 (Z.of_nat (List.length a)) (a ++ b) = a.
Proof.
  unfold substring.
  replace (Z.to_nat (Z.min 0 (Z.of_nat (List.length a)))) with O by lia.
  replace (Z.to_nat (Z.max 0 (Z.of_nat (List.length a))))
    with (List.length a) by lia.
  rewrite Nat.sub_0_r. simpl skipn.
  rewrite firstn_app, firstn_all, Nat.sub_diag. simpl. apply app_nil_r.
Qed.

Lemma substringFrom_suffix (a b : jsstring) (c : char) :
  substringFrom (Z.of_nat (List.length a) + 1) (a ++ c :: b) = b.
Proof.
  unfold substringFrom.
  replace (Z.to_nat (Z.of_nat (List.length a) + 1))
    with (List.length a + 1)%nat by lia.
  rewrite skipn_app, skipn_all2 by lia.
  replace (List.length a + 1 - List.length a)%nat with 1%nat by lia.
  reflexivity.
Qed.

(** The label and length behind the closing parenthesis when the rest
    holds a colon. *)
Lemma internalLabel_colon (name rest : jsstring) :
  ~ In COLON name ->
  internalLabel (name ++ COLON :: rest)
  = (Some (strOr (trim name) INTERNAL), orZero (parseFloat rest)).
Proof.
  intros Hn. unfold internalLabel. rewrite (indexOf_first _ _ _ Hn).
  destruct name as [|x name].
  - reflexivity.
  - replace (0 <? Z.of_nat (List.length (x :: name))) with true
      by (symmetry; apply Z.ltb_lt; simpl; lia).
    now rewrite substring_prefix, substringFrom_suffix.
Qed.

(** The label and length behind the closing parenthesis when the rest
    holds no colon. *)
Lemma internalLabel_no_colon (afterParen : jsstring) :
  ~ In COLON afterParen ->
  internalLabel afterParen = (Some (strOr (trim afterParen) INTERNAL), zero).
Proof.
  intros Hn. unfold internalLabel. now rewrite (indexOf_absent _ _ Hn).
Qed.

Lemma parseLeaf_colon (name rest : jsstring) :
  ~ In COLON name -> name <> [] ->
  parseLeaf (name ++ COLON :: rest)
  = Node [] (Some (trim name)) (orZero (parseFloat rest)).
Proof.
  intros Hn Hne. unfold parseLeaf. rewrite (indexOf_first _ _ _ Hn).
  destruct name as [|x name]; [congruence|].
  replace (0 <? Z.of_nat (List.length (x :: name))) with true
    by (symmetry; apply Z.ltb_lt; simpl; lia).
  now rewrite substring_prefix, substringFrom_suffix.
Qed.

Lemma parseLeaf_no_colon (str : jsstring) :
  ~ In COLON str -> parseLeaf str = Node [] (Some (trim str)) zero.
Proof. intros Hn. unfold parseLeaf. now rewrite (indexOf_absent _ _ Hn). Qed.

(** The node that [parseNode] builds when the closing parenthesis is
    found. *)
Lemma parseNode_internal (str : jsstring) (j : nat) :
  startsWith LPAREN (trim str) = true ->
  matchingClose (trim str) j ->
  parseNode str
  = Node (List.map parseNode
            (splitChildren (substring 1 (Z.of_nat j) (trim str))))
         (fst (internalLabel (skipn (S j) (trim str))))
         (snd (internalLabel (skipn (S j) (trim str)))).
Proof.
  intros Hs Hm. rewrite parseNode_eq. cbv zeta. rewrite Hs.
  rewrite (findEndParen_matchingClose _ _ Hs Hm).
  replace (Z.of_nat j =? -1) with false by (symmetry; apply Z.eqb_neq; lia).
  unfold substringFrom.
  now replace (Z.to_nat (Z.of_nat j + 1)) with (S j) by lia.
Qed.

(** C4, counterexample: for ["(A) x:1"] the text between [')'] and [':']
    is [" x"], and the name of the node is ["x"]. *)
Lemma C4_internal_label_counterexample :
  node_name (parseNode (js "(A) x:1")) = Some (js "x")
  /\ ~ internalLabelAsStated (js "(A) x:1").
Proof.
  split; [reflexivity|].
  intros H. specialize (H 2%nat eq_refl).
  destruct H as [H _].
  - split; [reflexivity|]. split; [reflexivity|].
    intros k Hk. assert (k = 1 \/ k = 2)%nat as [-> | ->] by lia; reflexivity.
  - specialize (H (js " x") (js "1") eq_refl).
    destruct H as [H _].
    + intros [E|[E|[]]]; discriminate E.
    + discriminate H.
Qed.

(** C4, amended: behind the matching [')'], the name is the text in front
    of the first [':'], or the whole rest when there is no [':'], with
    white space trimmed at both ends, and ["Internal"] when nothing is
    left; the length is the number read by [parseFloat] behind the first
    [':'], and 0 when that is NaN or there is no [':']. *)
Theorem C4_internal_label_trimmed (str : jsstring) (j : nat) :
  startsWith LPAREN (trim str) = true ->
  matchingClose (trim str) j ->
  (forall name rest,
      skipn (S j) (trim str) = name ++ COLON :: rest -> ~ In COLON name ->
      node_name (parseNode str)
      = Some (match trim name with [] => INTERNAL | n => n end)
      /\ node_length (parseNode str) = orZero (parseFloat rest))
  /\ (~ In COLON (skipn (S j) (trim str)) ->
      node_name (parseNode str)
      = Some (match trim (skipn (S j) (trim str)) with
              | [] => INTERNAL
              | n => n
              end)
      /\ node_length (parseNode str) = zero).
Proof.
  intros Hs Hm. rewrite (parseNode_internal str j Hs Hm). split.
  - intros name rest Hr Hn. rewrite Hr, (internalLabel_colon _ _ Hn).
    split; [|reflexivity]. cbn [fst node_name]. unfold strOr.
    now destruct (trim name).
  - intros Hn. rewrite (internalLabel_no_colon _ Hn).
    split; [|reflexivity]. cbn [fst node_name]. unfold strOr.
    now destruct (trim (skipn (S j) (trim str))).
Qed.

Lemma matchingClose_example : matchingClose (js "(A) x:1") 2.
Proof.
  split; [reflexivity|]. split; [reflexivity|].
  intros k Hk. assert (k = 1 \/ k = 2)%nat as [-> | ->] by lia; reflexivity.
Defined.

(** For [" (A) x:1 "] the node is named ["x"] and has length 1. *)
Lemma C4_internal_label_trimmed_witness :
  node_name (parseNode (js " (A) x:1 ")) = Some (js "x")
  /\ node_length (parseNode (js " (A) x:1 ")) = one.
Proof.
  destruct (C4_internal_label_trimmed (js " (A) x:1 ") 2 eq_refl
              matchingClose_example) as [H _].
  apply (H (js " x") (js "1") eq_refl).
  intros [E|[E|[]]]; discriminate E.
Defined.

(** C5, counterexamples: for [":5"] the name is [":5"] and the length 0,
    where the claim has the empty name and the length 5; for ["A :1"] the
    name is ["A"], where the claim has ["A "]. *)
Lemma C5_leaf_counterexample :
  parseNode (js ":5") = Node [] (Some (js ":5")) zero
  /\ ~ leafAsStated (js ":5")
  /\ parseNode (js "A :1") = Node [] (Some (js "A")) one
  /\ ~ leafAsStated (js "A :1").
Proof.
  split; [reflexivity|]. split; [|split; [reflexivity|]].
  - intros H. destruct (H eq_refl) as [H1 _].
    specialize (H1 [] (js "5") eq_refl (fun F => F)). discriminate H1.
  - intros H. destruct (H eq_refl) as [H1 _].
    specialize (H1 (js "A ") (js "1") eq_refl).
    assert (Hn : ~ In COLON (js "A ")) by (intros [E|[E|[]]]; discriminate E).
    specialize (H1 Hn). discriminate H1.
Qed.

(** C5, amended: a text that, trimmed, does not start with ['('] gives a
    leaf. When its first [':'] is not its first code unit, the name is
    the text in front of that [':'] with white space trimmed at both
    ends, and the length is the number read by [parseFloat] behind it, 0
    when that is NaN; when it holds no [':'], the name is the trimmed
    text and the length is 0. *)
Theorem C5_leaf_trimmed_name (str : jsstring) :
  startsWith LPAREN (trim str) = false ->
  (forall name rest,
      trim str = name ++ COLON :: rest -> ~ In COLON name -> name <> [] ->
      parseNode str = Node [] (Some (trim name)) (orZero (parseFloat rest)))
  /\ (~ In COLON (trim str) -> parseNode str = Node [] (Some (trim str)) zero).
Proof.
  intros Hs. rewrite parseNode_eq. cbv zeta. rewrite Hs. split.
  - intros name rest -> Hn Hne. now apply parseLeaf_colon.
  - intros Hn. rewrite (parseLeaf_no_colon _ Hn). now rewrite trim_idempotent.
Qed.

(** For [" A :1 "] the leaf is named ["A"] and has length 1. *)
Lemma C5_leaf_trimmed_name_witness :
  parseNode (js " A :1 ") = Node [] (Some (js "A")) one.
Proof.
  destruct (C5_leaf_trimmed_name (js " A :1 ") eq_refl) as [H _].
  apply (H (js "A ") (js "1") eq_refl).
  - intros [E|[E|[]]]; discriminate E.
  - discriminate.
Defined.

(* ===================================================================== *)
(** * The split into children *)
(* ===================================================================== *)

Lemma pushTrimmed_filter (children : list jsstring) (current : jsstring) :
  pushTrimmed children current
  = children ++ List.map trim (filter notBlank [current]).
Proof.
  unfold pushTrimmed, notBlank. simpl.
  destruct (nonEmpty (trim current)); [reflexivity|now rewrite app_nil_r].
Qed.

Lemma comma_not_paren (c : char) :
  (c =? COMMA)%N = true -> (c =? LPAREN)%N = false /\ (c =? RPAREN)%N = false.
Proof. intros H. apply N.eqb_eq in H. subst c. now split. Qed.

(** The loop state [children] grows by the trimmed pieces that are not
    blank. *)
Lemma splitChildrenFrom_segments (s : jsstring) :
  forall depth current children,
    splitChildrenFrom s depth current children
    = children
      ++ List.map trim (filter notBlank (segmentsFrom s depth current)).
Proof.
  induction s as [|c s IH]; intros depth current children.
  - apply pushTrimmed_filter.
  - cbn [splitChildrenFrom segmentsFrom]. unfold delta.
    destruct (c =? COMMA)%N eqn:EC.
    + destruct (comma_not_paren c EC) as [-> ->].
      destruct (depth =? 0); cbn [andb].
      * rewrite IH, pushTrimmed_filter, <- app_assoc. f_equal.
        cbn [filter]. destruct (notBlank current); reflexivity.
      * rewrite IH. now rewrite Z.add_0_r.
    + cbn [andb].
      destruct (c =? LPAREN)%N; [apply IH|].
      destruct (c =? RPAREN)%N; [apply IH|].
      rewrite IH. now rewrite Z.add_0_r.
Qed.

Lemma segmentsFrom_nonempty (s : jsstring) (depth : Z) (current : jsstring) :
  segmentsFrom s depth current <> [].
Proof.
  revert depth current. induction s as [|c s IH]; intros depth current;
    cbn [segmentsFrom]; [discriminate|].
  destruct ((c =? COMMA)%N && (depth =? 0)); [discriminate|apply IH].
Qed.

Lemma joinWith_cons (sep : char) (x : jsstring) (rest : list jsstring) :
  rest <> [] -> joinWith sep (x :: rest) = x ++ sep :: joinWith sep rest.
Proof. destruct rest; [congruence|reflexivity]. Qed.

Lemma separators_cons (offset : nat) (x : jsstring) (rest : list jsstring) :
  rest <> [] ->
  separators offset (x :: rest)
  = (offset + List.length x)%nat
    :: separators (offset + List.length x + 1) rest.
Proof. destruct rest; [congruence|reflexivity]. Qed.

(** The pieces and their separators make up the text that was scanned. *)
Lemma segmentsFrom_join (s : jsstring) :
  forall depth current,
    joinWith COMMA (segmentsFrom s depth current) = current ++ s.
Proof.
  induction s as [|c s IH]; intros depth current; cbn [segmentsFrom].
  - simpl. now rewrite app_nil_r.
  - destruct ((c =? COMMA)%N && (depth =? 0)) eqn:E.
    + apply andb_prop in E. destruct E as [E _]. apply N.eqb_eq in E. subst c.
      rewrite joinWith_cons by apply segmentsFrom_nonempty.
      now rewrite IH.
    + rewrite IH. now rewrite <- app_assoc.
Qed.

(** The separators are the commas that the scan meets at depth 0. *)
Lemma segmentsFrom_separators (s : jsstring) :
  forall depth current offset k,
    In k (separators offset (segmentsFrom s depth current))
    <-> exists i,
          k = (offset + List.length current + i)%nat
          /\ nth_error s i = Some COMMA
          /\ depth + depthOf (firstn i s) = 0.
Proof.
  induction s as [|c s IH]; intros depth current offset k; cbn [segmentsFrom].
  - simpl. split; [tauto|]. intros (i & _ & H & _). destruct i; discriminate.
  - destruct ((c =? COMMA)%N && (depth =? 0)) eqn:E.
    + apply andb_prop in E. destruct E as [EC ED].
      apply N.eqb_eq in EC. apply Z.eqb_eq in ED. subst c depth.
      rewrite separators_cons by apply segmentsFrom_nonempty.
      cbn [In]. rewrite IH. split.
      * intros [<- | (i & -> & Hn & Hd)].
        -- exists O. split; [lia|]. split; reflexivity.
        -- exists (S i). split; [simpl; lia|]. split; [exact Hn|].
           rewrite depthOf_firstn_cons. exact Hd.
      * intros (i & -> & Hn & Hd). destruct i as [|i].
        -- left. lia.
        -- right. exists i. split; [simpl; lia|]. split; [exact Hn|].
           rewrite depthOf_firstn_cons in Hd. exact Hd.
    + rewrite IH. rewrite length_app. cbn [List.length]. split.
      * intros (i & -> & Hn & Hd). exists (S i).
        split; [lia|]. split; [exact Hn|].
        rewrite depthOf_firstn_cons. lia.
      * intros (i & -> & Hn & Hd). destruct i as [|i].
        -- exfalso. simpl in Hn, Hd. injection Hn as ->.
           rewrite N.eqb_refl in E. cbn [andb] in E.
           apply Z.eqb_neq in E. lia.
        -- exists i. split; [lia|]. split; [exact Hn|].
           rewrite depthOf_firstn_cons in Hd. lia.
Qed.

(** The second loop splits at the commas at depth 0, and only there. *)
Lemma segmentsFrom_topLevelSplit (s : jsstring) :
  topLevelSplit s (segmentsFrom s 0 []).
Proof.
  split; [apply segmentsFrom_nonempty|]. split; [apply segmentsFrom_join|].
  intros k. rewrite segmentsFrom_separators. unfold topLevelComma, depthAt.
  split.
  - intros (i & -> & Hn & Hd). simpl. split; [exact Hn|lia].
  - intros [Hn Hd]. exists k. split; [reflexivity|]. split; [exact Hn|lia].
Qed.

Lemma substring_between (j : nat) (s : jsstring) :
  (1 <= j)%nat ->
  substring 1 (Z.of_nat j) s = firstn (j - 1) (skipn 1 s).
Proof.
  intros H. unfold substring.
  replace (Z.to_nat (Z.min 1 (Z.of_nat j))) with 1%nat by lia.
  now replace (Z.to_nat (Z.max 1 (Z.of_nat j))) with j by lia.
Qed.

Lemma matchingClose_positive (s : jsstring) (j : nat) :
  startsWith LPAREN s = true -> matchingClose s j -> (1 <= j)%nat.
Proof.
  intros Hs (Hn & _). destruct (startsWith_cons _ _ Hs) as [rest ->].
  destruct j; [discriminate|lia].
Qed.

Lemma map_parseNode_trim (l : list jsstring) :
  List.map parseNode (List.map trim l) = List.map parseNode l.
Proof.
  rewrite map_map. apply map_ext. intros a. apply parseNode_trim.
Qed.

(** C3: in an internal-node text whose parentheses are balanced, the
    first ['('] has a matching [')']; [parseNode] finds that [')'] (the
    first index at which the depth count is back at 0), cuts the text
    strictly between the two into the pieces between its commas at
    depth 0, and only those commas, and parses every piece that is not
    blank as a child, in order. With nothing between the parentheses, as
    in ["()"], the node has no children. *)
Theorem C3_internal_children (str : jsstring) :
  startsWith LPAREN (trim str) = true ->
  (balanced (trim str) -> exists j, matchingClose (trim str) j)
  /\ forall j,
       matchingClose (trim str) j ->
       findEndParen (trim str) = Z.of_nat j
       /\ (exists segs,
              topLevelSplit (firstn (j - 1) (skipn 1 (trim str))) segs
              /\ node_children (parseNode str)
                 = List.map parseNode (filter notBlank segs))
       /\ (firstn (j - 1) (skipn 1 (trim str)) = [] ->
           node_children (parseNode str) = []).
Proof.
  intros Hs. split; [now apply balanced_matchingClose|].
  intros j Hm.
  pose proof (matchingClose_positive _ _ Hs Hm) as Hj.
  assert (Hc : node_children (parseNode str)
               = List.map parseNode
                   (filter notBlank
                      (segmentsFrom (firstn (j - 1) (skipn 1 (trim str))) 0 []))).
  { rewrite (parseNode_internal str j Hs Hm). cbn [node_children].
    rewrite (substring_between j _ Hj). unfold splitChildren.
    rewrite splitChildrenFrom_segments. cbn [app].
    apply map_parseNode_trim. }
  split; [now apply findEndParen_matchingClose|]. split.
  - eexists. split; [apply segmentsFrom_topLevelSplit|exact Hc].
  - intros E. rewrite Hc, E. reflexivity.
Qed.

Lemma matchingClose_nested : matchingClose (trim (js " ((A,B),,C)x ")) 9.
Proof.
  split; [reflexivity|]. split; [reflexivity|].
  intros k Hk.
  assert (k = 1 \/ k = 2 \/ k = 3 \/ k = 4 \/ k = 5 \/ k = 6 \/ k = 7
          \/ k = 8 \/ k = 9)%nat
    as [-> | [-> | [-> | [-> | [-> | [-> | [-> | [-> | ->]]]]]]]]
    by lia; reflexivity.
Defined.

(** The input [" ((A,B),,C)x "]: the [')'] that matches the first ['(']
    is the one at index 9 of the trimmed text, not the one at index 5;
    the comma inside [(A,B)] is no split point; and the children are
    the parses of the pieces that are not blank. *)
Lemma C3_internal_children_witness :
  findEndParen (trim (js " ((A,B),,C)x ")) = 9
  /\ exists segs,
       topLevelSplit (js "(A,B),,C") segs
       /\ node_children (parseNode (js " ((A,B),,C)x "))
          = List.map parseNode (filter notBlank segs).
Proof.
  destruct (C3_internal_children (js " ((A,B),,C)x ") eq_refl) as [_ H].
  destruct (H 9%nat matchingClose_nested) as (H1 & H2 & _).
  split; [exact H1|exact H2].
Defined.

Lemma matchingClose_gap : matchingClose (trim (js "(A,,B)")) 5.
Proof.
  split; [reflexivity|]. split; [reflexivity|].
  intros k Hk.
  assert (k = 1 \/ k = 2 \/ k = 3 \/ k = 4 \/ k = 5)%nat
    as [-> | [-> | [-> | [-> | ->]]]] by lia; reflexivity.
Qed.

(** C3, counterexample. Between the parentheses of ["(A,,B)"] there are
    two commas at depth 0, hence three pieces, the second of them empty;
    [parseNode] returns two children, ["A"] and ["B"]: the guard
    [if (current.trim())] leaves out a piece that is blank. *)
Lemma C3_internal_children_counterexample :
  node_children (parseNode (js "(A,,B)"))
  = [Node [] (Some (js "A")) zero; Node [] (Some (js "B")) zero]
  /\ ~ internalChildrenAsStated (js "(A,,B)").
Proof.
  split; [reflexivity|].
  intros H.
  destruct (H 5%nat eq_refl matchingClose_gap) as (_ & (segs & Hsplit & Hc) & _).
  specialize (Hc ltac:(discriminate)).
  apply (f_equal (@List.length TreeNode)) in Hc.
  rewrite length_map in Hc.
  change (List.length (node_children (parseNode (js "(A,,B)")))) with 2%nat in Hc.
  destruct Hsplit as (_ & _ & Hsep).
  destruct segs as [|a [|b [|c segs]]]; try discriminate Hc.
  assert (H1 : In 1%nat (separators 0 [a; b])).
  { apply Hsep. split; reflexivity. }
  assert (H2 : In 2%nat (separators 0 [a; b])).
  { apply Hsep. split; reflexivity. }
  cbn in H1, H2. destruct H1 as [H1|[]], H2 as [H2|[]]. lia.
Qed.

(* ===================================================================== *)
(** * The round trip through the Newick writer *)
(* ===================================================================== *)

(** C1, counterexamples. A leaf named [" A"] is written as [" A;"] and
    read back with the name ["A"], whatever the number format. With the
    fixed precision of four decimals, the branch length 0.00001 is
    written as [0.0000] and read back as 0. A leaf with the empty name is
    written as [":1.0000"] inside its parent and read back as a leaf of
    that name. A label [" x"] is read back as ["x"], and of a label
    ["x:y"] only ["x"] is read back. *)
Lemma C1_round_trip_counterexample :
  ~ (exists fmt, roundTripAsStated fmt (Leaf (js " A") zero))
  /\ ~ roundTripAsStated (fun x => toFixed x 4)
         (Leaf (js "A") (parseFloat (js "0.00001")))
  /\ ~ roundTripAsStated (fun x => toFixed x 4)
         (Internal [Leaf [] one; Leaf (js "B") one] None zero zero)
  /\ ~ roundTripAsStated (fun x => toFixed x 4)
         (Internal [Leaf (js "A") one] (Some (js " x")) zero zero)
  /\ ~ roundTripAsStated (fun x => toFixed x 4)
         (Internal [Leaf (js "A") one] (Some (js "x:y")) zero zero).
Proof.
  split; [|split; [|split; [|split]]].
  - intros [fmt H]. specialize (H eq_refl). vm_compute in H. inversion H.
  - intros H. specialize (H eq_refl). vm_compute in H.
    inversion H.
    match goal with Htol : withinTolerance _ _ = true |- _ =>
      vm_compute in Htol; discriminate Htol end.
  - intros H. specialize (H eq_refl). vm_compute in H.
    inversion H.
    match goal with Hc : Forall2 _ _ _ |- _ => inversion Hc end.
    match goal with Hleaf : sameTree (Leaf _ _) _ |- _ => inversion Hleaf end.
  - intros H. specialize (H eq_refl). vm_compute in H. inversion H.
  - intros H. specialize (H eq_refl). vm_compute in H. inversion H.
Qed.

(** ** How the parser scans a written text *)

Lemma depthOf_app (a b : jsstring) : depthOf (a ++ b) = depthOf a + depthOf b.
Proof. induction a as [|c a IH]; simpl; lia. Qed.

Lemma staysOpen_app (a b : jsstring) :
  forall d, staysOpen d a -> staysOpen (d + depthOf a) b -> staysOpen d (a ++ b).
Proof.
  induction a as [|c a IH]; intros d Ha Hb; simpl in *.
  - now replace (d + 0) with d in Hb by lia.
  - destruct Ha as [H1 H2]. split; [exact H1|].
    apply IH; [exact H2|]. now replace (d + delta c + depthOf a)
                              with (d + (delta c + depthOf a)) by lia.
Qed.

Lemma commasInside_app (a b : jsstring) :
  forall d,
    commasInside d a -> commasInside (d + depthOf a) b ->
    commasInside d (a ++ b).
Proof.
  induction a as [|c a IH]; intros d Ha Hb; simpl in *.
  - now replace (d + 0) with d in Hb by lia.
  - destruct Ha as [H1 H2]. split; [exact H1|].
    apply IH; [exact H2|]. now replace (d + delta c + depthOf a)
                              with (d + (delta c + depthOf a)) by lia.
Qed.

Lemma staysOpen_mono (s : jsstring) :
  forall d d', d <= d' -> staysOpen d s -> staysOpen d' s.
Proof.
  induction s as [|c s IH]; intros d d' Hle H; simpl in *; [exact I|].
  destruct H as [H1 H2]. split; [lia|]. apply (IH (d + delta c)); [lia|exact H2].
Qed.

Lemma commasInside_mono (s : jsstring) :
  forall d d', 0 <= d -> d <= d' -> staysOpen d s ->
    commasInside d s -> commasInside d' s.
Proof.
  induction s as [|c s IH]; intros d d' H0 Hle Ho H; simpl in *; [exact I|].
  destruct H as [H1 H2]. destruct Ho as [Ho1 Ho2]. split.
  - intros E. specialize (H1 E). lia.
  - apply (IH (d + delta c)); [lia|lia|exact Ho2|exact H2].
Qed.

Lemma delta_plain (c : char) :
  c <> LPAREN -> c <> RPAREN -> delta c = 0.
Proof.
  intros H1 H2. unfold delta.
  destruct (N.eqb_spec c LPAREN); [contradiction|].
  destruct (N.eqb_spec c RPAREN); [contradiction|reflexivity].
Qed.

Lemma plain_depthOf (s : jsstring) : plain s -> depthOf s = 0.
Proof.
  induction 1 as [|c s (H1 & H2 & _) _ IH]; simpl; [reflexivity|].
  rewrite (delta_plain c H1 H2). lia.
Qed.

Lemma plain_staysOpen (s : jsstring) (d : Z) :
  0 <= d -> plain s -> staysOpen d s.
Proof.
  intros Hd H. induction H as [|c s (H1 & H2 & _) _ IH]; simpl; [exact I|].
  rewrite (delta_plain c H1 H2). replace (d + 0) with d by lia.
  split; [lia|exact IH].
Qed.

Lemma plain_commasInside (s : jsstring) (d : Z) :
  plain s -> commasInside d s.
Proof.
  intros H. induction H as [|c s (H1 & H2 & H3) _ IH]; simpl; [exact I|].
  rewrite (delta_plain c H1 H2). replace (d + 0) with d by lia.
  split; [intros E; contradiction|exact IH].
Qed.

Lemma plain_app (a b : jsstring) : plain a -> plain b -> plain (a ++ b).
Proof. intros Ha Hb. apply Forall_app. now split. Qed.

(** The first loop on a written internal node: it breaks at the
    parenthesis behind the children. *)
Lemma findEndParenFrom_written (inner tail : jsstring) :
  forall i d,
    staysOpen d inner -> d + depthOf inner = 0 ->
    findEndParenFrom (inner ++ RPAREN :: tail) i (d + 1)
    = i + Z.of_nat (List.length inner).
Proof.
  induction inner as [|c inner IH]; intros i d Ho Hd.
  - simpl in Hd. cbn [app findEndParenFrom List.length].
    change (RPAREN =? LPAREN)%N with false.
    change (RPAREN =? RPAREN)%N with true. cbv iota.
    replace (d + 1 - 1 =? 0) with true by (symmetry; apply Z.eqb_eq; lia).
    simpl. lia.
  - destruct Ho as [H1 H2]. simpl in Hd.
    specialize (IH (i + 1) (d + delta c) H2 ltac:(lia)).
    cbn [app findEndParenFrom List.length]. unfold delta in *.
    destruct (c =? LPAREN)%N.
    + rewrite IH. lia.
    + destruct (c =? RPAREN)%N.
      * replace (d + 1 - 1 =? 0) with false by (symmetry; apply Z.eqb_neq; lia).
        replace (d + 1 - 1) with (d + -1 + 1) by lia. rewrite IH. lia.
      * replace (d + 1) with (d + 0 + 1) by lia. rewrite IH. lia.
Qed.

(** The second loop runs through a piece without a cut. *)
Lemma segmentsFrom_piece (p rest : jsstring) :
  forall d current,
    commasInside d p ->
    segmentsFrom (p ++ rest) d current
    = segmentsFrom rest (d + depthOf p) (current ++ p).
Proof.
  induction p as [|c p IH]; intros d current H.
  - simpl. now rewrite Z.add_0_r, app_nil_r.
  - destruct H as [H1 H2]. cbn [app segmentsFrom].
    destruct ((c =? COMMA)%N && (d =? 0)) eqn:E.
    + apply andb_prop in E. destruct E as [EC ED].
      apply N.eqb_eq in EC. apply Z.eqb_eq in ED. specialize (H1 EC). lia.
    + rewrite (IH _ _ H2). simpl. rewrite <- app_assoc.
      now replace (d + delta c + depthOf p) with (d + (delta c + depthOf p))
        by lia.
Qed.

(** The second loop cuts the written children apart again. *)
Lemma segmentsFrom_joinWith (parts : list jsstring) :
  parts <> [] ->
  Forall piece parts ->
  segmentsFrom (joinWith COMMA parts) 0 [] = parts.
Proof.
  intros Hne Hall. induction Hall as [|p parts Hp Hall IH]; [congruence|].
  destruct parts as [|q parts].
  - simpl. rewrite <- (app_nil_r p) at 1.
    rewrite (segmentsFrom_piece p [] 0 [] (piece_commas _ Hp)).
    reflexivity.
  - rewrite joinWith_cons by discriminate.
    rewrite (segmentsFrom_piece p _ 0 [] (piece_commas _ Hp)).
    rewrite (piece_closed _ Hp). cbn [app segmentsFrom Z.add].
    change ((COMMA =? COMMA)%N && (0 =? 0)) with true. cbv iota.
    f_equal. apply IH. discriminate.
Qed.

Lemma joinWith_depthOf (parts : list jsstring) :
  Forall piece parts -> depthOf (joinWith COMMA parts) = 0.
Proof.
  induction 1 as [|p parts Hp Hall IH]; [reflexivity|].
  destruct parts as [|q parts]; [exact (piece_closed _ Hp)|].
  rewrite joinWith_cons by discriminate.
  rewrite depthOf_app, (piece_closed _ Hp).
  change (depthOf (COMMA :: joinWith COMMA (q :: parts)))
    with (0 + depthOf (joinWith COMMA (q :: parts))).
  rewrite IH. reflexivity.
Qed.

Lemma joinWith_staysOpen (parts : list jsstring) (d : Z) :
  0 <= d -> Forall piece parts -> staysOpen d (joinWith COMMA parts).
Proof.
  intros Hd. induction 1 as [|p parts Hp Hall IH]; [exact I|].
  assert (Hpo : staysOpen d p)
    by (apply (staysOpen_mono p 0 d Hd), (piece_open _ Hp)).
  destruct parts as [|q parts]; [exact Hpo|].
  rewrite joinWith_cons by discriminate.
  apply staysOpen_app; [exact Hpo|].
  rewrite (piece_closed _ Hp), Z.add_0_r.
  split; [change (delta COMMA) with 0; lia|].
  change (delta COMMA) with 0. now rewrite Z.add_0_r.
Qed.

Lemma joinWith_commasInside (parts : list jsstring) (d : Z) :
  0 < d -> Forall piece parts -> commasInside d (joinWith COMMA parts).
Proof.
  intros Hd. induction 1 as [|p parts Hp Hall IH]; [exact I|].
  assert (Hpc : commasInside d p).
  { apply (commasInside_mono p 0 d); [lia|lia|apply (piece_open _ Hp)|].
    apply (piece_commas _ Hp). }
  destruct parts as [|q parts]; [exact Hpc|].
  rewrite joinWith_cons by discriminate.
  apply commasInside_app; [exact Hpc|].
  rewrite (piece_closed _ Hp), Z.add_0_r.
  split; [intros _; exact Hd|].
  change (delta COMMA) with 0. now rewrite Z.add_0_r.
Qed.

Lemma trim_id (x : jsstring) :
  noLeadingSpace x -> noLeadingSpace (rev x) -> trim x = x.
Proof.
  intros H1 H2. unfold trim, trimEnd.
  now rewrite (trimStart_id _ H1), (trimStart_id _ H2), rev_involutive.
Qed.

Lemma headClean_noLeadingSpace (s : jsstring) :
  headClean s = true -> noLeadingSpace s.
Proof. destruct s as [|c s]; simpl; [trivial|]. now destruct (isWhiteSpace c). Qed.

Lemma noLeadingSpace_app (a b : jsstring) :
  a <> [] -> noLeadingSpace a -> noLeadingSpace (a ++ b).
Proof. destruct a; [congruence|trivial]. Qed.

Lemma noTrailingSpace_app (a b : jsstring) :
  b <> [] -> noLeadingSpace (rev b) -> noLeadingSpace (rev (a ++ b)).
Proof.
  intros Hne H. rewrite rev_app_distr. apply noLeadingSpace_app; [|exact H].
  intros E. apply Hne. apply (f_equal (@rev char)) in E.
  now rewrite rev_involutive in E.
Qed.

Lemma noSpace_noLeadingSpace (s : jsstring) :
  Forall (fun c => isWhiteSpace c = false) s -> noLeadingSpace s.
Proof. destruct 1; simpl; trivial. Qed.

Lemma isWhiteSpace_range (c : char) :
  isWhiteSpace c = true -> (c <= 32 \/ 160 <= c)%N.
Proof.
  unfold isWhiteSpace. intros H.
  repeat (apply orb_prop in H; destruct H as [H|H]);
    repeat (apply andb_prop in H; destruct H as [H ?]);
    repeat match goal with
           | E : (_ =? _)%N = true |- _ => apply N.eqb_eq in E
           | E : (_ <=? _)%N = true |- _ => apply N.leb_le in E
           end; lia.
Qed.

Lemma decimalChar_range (c : char) :
  decimalChar c = true -> (43 <= c <= 101 /\ c <> 44)%N.
Proof.
  unfold decimalChar, isDigit. intros H.
  repeat (apply orb_prop in H; destruct H as [H|H]);
    repeat (apply andb_prop in H; destruct H as [H ?]);
    repeat match goal with
           | E : (_ =? _)%N = true |- _ => apply N.eqb_eq in E
           | E : (_ <=? _)%N = true |- _ => apply N.leb_le in E
           end; subst; try (compute; split; [split|]; congruence); lia.
Qed.

Lemma decimalChar_noSpace (c : char) :
  decimalChar c = true -> isWhiteSpace c = false.
Proof.
  intros H. apply decimalChar_range in H.
  destruct (isWhiteSpace c) eqn:E; [|reflexivity].
  apply isWhiteSpace_range in E. lia.
Qed.

Lemma decimalChar_plain (c : char) :
  decimalChar c = true -> c <> LPAREN /\ c <> RPAREN /\ c <> COMMA.
Proof.
  intros H. apply decimalChar_range in H.
  change LPAREN with 40%N. change RPAREN with 41%N. change COMMA with 44%N.
  lia.
Qed.

Lemma validName_spec (n : jsstring) :
  validName n = true -> plain n /\ ~ In COLON n.
Proof.
  unfold validName. intros H. rewrite forallb_forall in H. split.
  - apply Forall_forall. intros c Hc. specialize (H c Hc).
    unfold reserved in H. apply negb_true_iff in H.
    repeat (apply orb_false_elim in H; destruct H as [H ?]).
    repeat match goal with
           | E : (_ =? _)%N = false |- _ => apply N.eqb_neq in E
           end.
    auto.
  - intros Hc. specialize (H _ Hc). discriminate H.
Qed.

Lemma cleanName_spec (n : jsstring) :
  cleanName n = true ->
  plain n /\ ~ In COLON n /\ noLeadingSpace n /\ noLeadingSpace (rev n).
Proof.
  unfold cleanName. intros H.
  apply andb_prop in H. destruct H as [H H3].
  apply andb_prop in H. destruct H as [H1 H2].
  destruct (validName_spec n H1) as [Hp Hc].
  auto using headClean_noLeadingSpace.
Qed.

(** A piece is a child string of its own: not blank, and left as it is
    by [trim]. *)
Lemma pieces_kept (parts : list jsstring) :
  Forall piece parts -> List.map trim (filter notBlank parts) = parts.
Proof.
  induction 1 as [|p parts Hp Hall IH]; [reflexivity|].
  cbn [filter]. unfold notBlank at 1. rewrite (piece_trim _ Hp).
  destruct p as [|c p]; [now destruct (piece_nonempty _ Hp)|].
  cbn [nonEmpty List.map]. now rewrite (piece_trim _ Hp), IH.
Qed.

(** The child strings of a written internal node are the written
    children. *)
Lemma children_written (parts : list jsstring) :
  Forall piece parts ->
  List.map trim (filter notBlank (segmentsFrom (joinWith COMMA parts) 0 []))
  = parts.
Proof.
  intros Hall. destruct parts as [|p parts]; [reflexivity|].
  rewrite segmentsFrom_joinWith by (auto; discriminate).
  now apply pieces_kept.
Qed.

(** [parseNode] on a written internal node. *)
Lemma parseNode_written (parts : list jsstring) (tail : jsstring) :
  Forall piece parts ->
  trim (LPAREN :: joinWith COMMA parts ++ RPAREN :: tail)
  = LPAREN :: joinWith COMMA parts ++ RPAREN :: tail ->
  parseNode (LPAREN :: joinWith COMMA parts ++ RPAREN :: tail)
  = Node (List.map parseNode parts)
         (fst (internalLabel tail)) (snd (internalLabel tail)).
Proof.
  intros Hall Htrim.
  set (inner := joinWith COMMA parts) in *.
  assert (Hend : findEndParen (LPAREN :: inner ++ RPAREN :: tail)
                 = Z.of_nat (S (List.length inner))).
  { unfold findEndParen. cbn [findEndParenFrom].
    change (LPAREN =? LPAREN)%N with true. cbv iota.
    rewrite (findEndParenFrom_written inner tail (0 + 1) 0).
    - lia.
    - now apply joinWith_staysOpen.
    - unfold inner. rewrite (joinWith_depthOf parts Hall). reflexivity. }
  rewrite parseNode_eq. cbv zeta. rewrite Htrim.
  change (startsWith LPAREN (LPAREN :: inner ++ RPAREN :: tail)) with true.
  cbv iota. rewrite Hend.
  replace (Z.of_nat (S (List.length inner)) =? -1) with false
    by (symmetry; apply Z.eqb_neq; lia).
  rewrite substring_between by lia.
  replace (S (List.length inner) - 1)%nat with (List.length inner) by lia.
  cbn [skipn]. rewrite firstn_app, firstn_all, Nat.sub_diag.
  cbn [firstn]. rewrite app_nil_r.
  unfold splitChildren. rewrite splitChildrenFrom_segments. cbn [app].
  unfold inner at 1. rewrite (children_written _ Hall).
  unfold substringFrom.
  replace (Z.to_nat (Z.of_nat (S (List.length inner)) + 1))
    with (S (List.length inner + 1)) by lia.
  cbn [skipn]. rewrite skipn_app, skipn_all2 by lia.
  replace (List.length inner + 1 - List.length inner)%nat with 1%nat by lia.
  reflexivity.
Qed.

Section RoundTrip.

Variable fmt : number -> jsstring.

Lemma withinTolerance_zero (x : number) :
  isZero x = true -> withinTolerance x zero = true.
Proof. destruct x; try discriminate. reflexivity. Qed.

(** The two shapes of a written branch length. *)
Lemma lengthText_cases (isRoot : bool) (bl : number) :
  lengthReadable fmt isRoot bl = true ->
  (lengthText fmt isRoot bl = [] /\ withinTolerance bl zero = true)
  \/ (lengthText fmt isRoot bl = COLON :: fmt bl
      /\ Forall (fun c => decimalChar c = true) (fmt bl)
      /\ withinTolerance bl (orZero (parseFloat (fmt bl))) = true).
Proof.
  unfold lengthReadable, lengthText.
  destruct (isRoot && isZero bl) eqn:E.
  - intros _. left. split; [reflexivity|].
    apply andb_prop in E. now apply withinTolerance_zero.
  - intros H. right. apply andb_prop in H. destruct H as [H1 H2].
    split; [reflexivity|]. split; [|exact H2].
    apply Forall_forall. now apply forallb_forall.
Qed.

Lemma colon_decimal_plain (f : jsstring) :
  Forall (fun c => decimalChar c = true) f -> plain (COLON :: f).
Proof.
  intros H. constructor; [repeat split; discriminate|].
  eapply Forall_impl; [|exact H]. exact decimalChar_plain.
Qed.

Lemma colon_decimal_noTrailingSpace (f : jsstring) :
  Forall (fun c => decimalChar c = true) f ->
  noLeadingSpace (rev (COLON :: f)).
Proof.
  intros H. apply noSpace_noLeadingSpace, Forall_rev.
  constructor; [reflexivity|].
  eapply Forall_impl; [|exact H]. exact decimalChar_noSpace.
Qed.

Lemma plain_piece (x : jsstring) :
  x <> [] -> trim x = x -> plain x -> piece x.
Proof.
  intros Hne Ht Hp. constructor; auto.
  - now apply plain_staysOpen.
  - now apply plain_commasInside.
  - now apply plain_depthOf.
Qed.

Lemma plain_not_internal (name rest : jsstring) :
  name <> [] -> plain name -> startsWith LPAREN (name ++ rest) = false.
Proof.
  intros Hne Hp. destruct name as [|c name]; [congruence|].
  apply Forall_inv in Hp. destruct Hp as [Hp _].
  simpl. now apply N.eqb_neq.
Qed.

(** A written leaf is a piece, and is read back as that leaf. *)
Lemma leaf_round_trip (isRoot : bool) (name : jsstring) (bl : number) :
  roundTrippable fmt isRoot (Leaf name bl) = true ->
  piece (subtree fmt isRoot (Leaf name bl))
  /\ sameTree (Leaf name bl) (parseNode (subtree fmt isRoot (Leaf name bl))).
Proof.
  cbn [roundTrippable subtree]. intros H.
  apply andb_prop in H. destruct H as [H Hlen].
  apply andb_prop in H. destruct H as [Hne Hclean].
  assert (Hne' : name <> []) by (destruct name; [discriminate|discriminate]).
  destruct (cleanName_spec _ Hclean) as (Hp & Hc & Hl & Hr).
  destruct (lengthText_cases _ _ Hlen) as [[-> Htol] | (-> & Hdec & Htol)].
  - rewrite app_nil_r.
    pose proof (trim_id _ Hl Hr) as Ht.
    split; [now apply plain_piece|].
    rewrite parseNode_eq. cbv zeta. rewrite Ht.
    pose proof (plain_not_internal name [] Hne' Hp) as Hs.
    rewrite app_nil_r in Hs. rewrite Hs.
    rewrite (parseLeaf_no_colon _ Hc), Ht.
    now constructor.
  - assert (Ht : trim (name ++ COLON :: fmt bl) = name ++ COLON :: fmt bl).
    { apply trim_id.
      - now apply noLeadingSpace_app.
      - apply noTrailingSpace_app; [discriminate|].
        now apply colon_decimal_noTrailingSpace. }
    split.
    + apply plain_piece; [now destruct name|exact Ht|].
      apply plain_app; [exact Hp|now apply colon_decimal_plain].
    + rewrite parseNode_eq. cbv zeta. rewrite Ht.
      rewrite (plain_not_internal name _ Hne' Hp).
      rewrite (parseLeaf_colon _ _ Hc Hne'), (trim_id _ Hl Hr).
      now constructor.
Qed.

(** What stands behind the closing parenthesis of a written node. *)
Lemma tail_written (isRoot : bool) (label : option jsstring) (bl : number) :
  cleanName (labelText label) = true ->
  lengthReadable fmt isRoot bl = true ->
  let tail := labelText label ++ lengthText fmt isRoot bl in
  plain tail
  /\ noLeadingSpace (rev (RPAREN :: tail))
  /\ fst (internalLabel tail)
     = Some match label with
            | Some (c :: l) => c :: l
            | Some [] | None => INTERNAL
            end
  /\ withinTolerance bl (snd (internalLabel tail)) = true.
Proof.
  intros Hclean Hlen. cbv zeta.
  destruct (cleanName_spec _ Hclean) as (Hp & Hc & Hl & Hr).
  pose proof (trim_id _ Hl Hr) as Ht.
  assert (Hname : strOr (labelText label) INTERNAL
                  = match label with
                    | Some (c :: l) => c :: l
                    | Some [] | None => INTERNAL
                    end) by (now destruct label as [[|c l]|]).
  destruct (lengthText_cases _ _ Hlen) as [[-> Htol] | (-> & Hdec & Htol)].
  - rewrite app_nil_r. split; [exact Hp|]. split.
    + destruct (labelText label) as [|c l] eqn:E; [reflexivity|].
      change (RPAREN :: c :: l) with ([RPAREN] ++ c :: l).
      apply noTrailingSpace_app; [discriminate|exact Hr].
    + rewrite (internalLabel_no_colon _ Hc), Ht. cbn [fst snd].
      now rewrite Hname.
  - split; [apply plain_app; [exact Hp|now apply colon_decimal_plain]|].
    split.
    + change (RPAREN :: labelText label ++ COLON :: fmt bl)
        with ((RPAREN :: labelText label) ++ COLON :: fmt bl).
      apply noTrailingSpace_app; [discriminate|].
      now apply colon_decimal_noTrailingSpace.
    + rewrite (internalLabel_colon _ _ Hc), Ht. cbn [fst snd].
      now rewrite Hname.
Qed.

(** A written internal node is a piece. *)
Lemma internal_piece (parts : list jsstring) (tail : jsstring) :
  Forall piece parts ->
  plain tail ->
  noLeadingSpace (rev (RPAREN :: tail)) ->
  piece (LPAREN :: joinWith COMMA parts ++ RPAREN :: tail).
Proof.
  intros Hall Hp Hr. constructor.
  - discriminate.
  - apply trim_id; [reflexivity|].
    change (LPAREN :: joinWith COMMA parts ++ RPAREN :: tail)
      with ((LPAREN :: joinWith COMMA parts) ++ RPAREN :: tail).
    apply noTrailingSpace_app; [discriminate|exact Hr].
  - split; [change (delta LPAREN) with 1; lia|].
    change (0 + delta LPAREN) with 1.
    apply staysOpen_app; [apply joinWith_staysOpen; [lia|exact Hall]|].
    rewrite (joinWith_depthOf _ Hall).
    split; [change (delta RPAREN) with (-1); lia|].
    change (1 + 0 + delta RPAREN) with 0.
    apply plain_staysOpen; [lia|exact Hp].
  - split; [discriminate|].
    change (0 + delta LPAREN) with 1.
    apply commasInside_app; [apply joinWith_commasInside; [lia|exact Hall]|].
    rewrite (joinWith_depthOf _ Hall).
    split; [discriminate|].
    now apply plain_commasInside.
  - change (depthOf (LPAREN :: joinWith COMMA parts ++ RPAREN :: tail))
      with (1 + depthOf (joinWith COMMA parts ++ RPAREN :: tail)).
    rewrite depthOf_app, (joinWith_depthOf _ Hall).
    change (depthOf (RPAREN :: tail)) with (-1 + depthOf tail).
    rewrite (plain_depthOf _ Hp). reflexivity.
Qed.

(** Every written subtree is a piece, and is read back as the tree it
    was written from. *)
Lemma subtree_round_trip (t : SpecTree) :
  forall isRoot,
    roundTrippable fmt isRoot t = true ->
    piece (subtree fmt isRoot t)
    /\ sameTree t (parseNode (subtree fmt isRoot t)).
Proof.
  induction t as [name bl|children label bl height IH] using SpecTree_ind';
    intros isRoot H; [now apply leaf_round_trip|].
  cbn [roundTrippable] in H.
  apply andb_prop in H. destruct H as [H Hlen].
  apply andb_prop in H. destruct H as [H Hclean].
  apply andb_prop in H. destruct H as [Hne Hchildren].
  rewrite forallb_forall in Hchildren.
  assert (Hparts : Forall piece (List.map (subtree fmt false) children)).
  { apply Forall_map, Forall_forall. intros c Hc.
    rewrite Forall_forall in IH. now apply (IH c Hc false), Hchildren. }
  assert (Hsame : Forall2 sameTree children
                    (List.map parseNode
                       (List.map (subtree fmt false) children))).
  { rewrite map_map. clear Hparts Hne.
    induction children as [|c cs IHcs]; [constructor|].
    cbn [List.map]. apply Forall_cons_iff in IH. destruct IH as [IHc IHrest].
    constructor.
    - apply (IHc false), Hchildren. now left.
    - apply IHcs; [exact IHrest|]. intros x Hx. apply Hchildren. now right. }
  destruct (tail_written isRoot label bl Hclean Hlen)
    as (Hplain & Hend & Hname & Htol).
  cbn [subtree].
  pose proof (internal_piece _ _ Hparts Hplain Hend) as Hpiece.
  split; [exact Hpiece|].
  rewrite (parseNode_written _ _ Hparts (piece_trim _ Hpiece)).
  rewrite Hname.
  constructor; [now destruct children|exact Hsame|exact Htol].
Qed.

(** C1, amended: for a tree in which every internal node has a child,
    leaf names are not empty, names and labels hold none of [( ) , : ;]
    and no white space at either end, and the text of every written
    branch length consists of the characters of a decimal number and is
    read back by [parseFloat] within [1e-9], parsing the written text
    gives the same tree: the same shape, the same leaf names in the same
    places, the labels of internal nodes with ["Internal"] for a missing
    or empty one, and every branch length within [1e-9] of the
    original. *)
Theorem C1_round_trip (t : SpecTree) :
  roundTrippable fmt true t = true ->
  sameTree t (parseNewick (serialize fmt t)).
Proof.
  intros H. destruct (subtree_round_trip t true H) as [Hpiece Hsame].
  unfold parseNewick, serialize.
  now rewrite replaceTrailingSemicolon_snoc, (piece_trim _ Hpiece).
Qed.

End RoundTrip.

(** The tree [(A:0.1,B:0.2)] under a root of length 0, written with ten
    decimals. *)
Lemma C1_round_trip_witness :
  sameTree
    (Internal [Leaf (js "A") (parseFloat (js "0.1"));
               Leaf (js "B") (parseFloat (js "0.2"))] None zero zero)
    (parseNewick (js "(A:0.1000000000,B:0.2000000000);")).
Proof.
  apply (C1_round_trip (fun x => toFixed x 10)
           (Internal [Leaf (js "A") (parseFloat (js "0.1"));
                      Leaf (js "B") (parseFloat (js "0.2"))] None zero zero)).
  vm_compute. reflexivity.
Defined.

(* ===================================================================== *)
(** * Further properties of the parser *)
(* ===================================================================== *)

Lemma trimStart_app_space (ws s : jsstring) :
  allWhiteSpace ws -> trimStart (ws ++ s) = trimStart s.
Proof.
  induction 1 as [|c ws Hc _ IH]; [reflexivity|].
  simpl. now rewrite Hc.
Qed.

Lemma trimEnd_app_space (s ws : jsstring) :
  allWhiteSpace ws -> trimEnd (s ++ ws) = trimEnd s.
Proof.
  intros H. unfold trimEnd. rewrite rev_app_distr.
  rewrite trimStart_app_space; [reflexivity|now apply Forall_rev].
Qed.

(** [trim] takes white space off both ends, and nothing else. *)
Lemma trim_decompose (s : jsstring) :
  exists a b, s = a ++ trim s ++ b /\ allWhiteSpace a /\ allWhiteSpace b.
Proof.
  destruct (trimStart_suffix s) as (a & Ha & Hwa).
  destruct (trimEnd_prefix (trimStart s)) as (b & Hb & Hwb).
  exists a, b. unfold trim. now rewrite <- Hb.
Qed.

Lemma trim_nonempty (x : jsstring) :
  x <> [] -> noLeadingSpace x -> trim x <> [].
Proof.
  intros Hne Hl. unfold trim. rewrite (trimStart_id _ Hl).
  destruct (trimEnd_prefix x) as (ws & Hx & Hws).
  intros E. rewrite E in Hx. simpl in Hx. subst ws.
  destruct x as [|c x]; [congruence|].
  apply Forall_inv in Hws. simpl in Hl. congruence.
Qed.

Lemma space_delta (c : char) : isWhiteSpace c = true -> delta c = 0.
Proof.
  intros H. apply isWhiteSpace_range in H. apply delta_plain.
  - change LPAREN with 40%N. lia.
  - change RPAREN with 41%N. lia.
Qed.

Lemma space_depthOf (ws : jsstring) : allWhiteSpace ws -> depthOf ws = 0.
Proof.
  induction 1 as [|c ws Hc _ IH]; [reflexivity|].
  simpl. rewrite (space_delta c Hc). lia.
Qed.

Lemma trim_depthOf (s : jsstring) : depthOf (trim s) = depthOf s.
Proof.
  destruct (trim_decompose s) as (a & b & Hs & Ha & Hb).
  rewrite Hs at 2. rewrite !depthOf_app.
  rewrite (space_depthOf a Ha), (space_depthOf b Hb). lia.
Qed.

(** Every piece between two cuts of the second loop has as many opening
    as closing parentheses, when the whole text has. *)
Lemma segmentsFrom_closed (s : jsstring) :
  forall depth current,
    depth = depthOf current ->
    depthOf (current ++ s) = 0 ->
    Forall (fun p => depthOf p = 0) (segmentsFrom s depth current).
Proof.
  induction s as [|c s IH]; intros depth current Hd H0; cbn [segmentsFrom].
  - rewrite app_nil_r in H0. now repeat constructor.
  - rewrite depthOf_app in H0. cbn [depthOf] in H0.
    destruct ((c =? COMMA)%N && (depth =? 0)) eqn:E.
    + apply andb_prop in E. destruct E as [EC ED].
      apply N.eqb_eq in EC. apply Z.eqb_eq in ED. subst c.
      change (delta COMMA) with 0 in H0.
      subst depth. constructor; [lia|]. rewrite ED.
      apply IH; [reflexivity|]. simpl. lia.
    + apply IH.
      * rewrite depthOf_app. simpl. lia.
      * rewrite <- app_assoc, depthOf_app. simpl. lia.
Qed.

(** The child strings of a text: not empty, trimmed, and closed when the
    text is. *)
Lemma splitChildren_pieces (inner child : jsstring) :
  In child (splitChildren inner) ->
  child <> [] /\ trim child = child /\ (depthOf inner = 0 -> depthOf child = 0).
Proof.
  unfold splitChildren. rewrite splitChildrenFrom_segments. cbn [app].
  intros H. apply in_map_iff in H. destruct H as (seg & <- & Hseg).
  apply filter_In in Hseg. destruct Hseg as [Hin Hnb].
  split; [|split].
  - unfold notBlank in Hnb. now destruct (trim seg).
  - apply trim_idempotent.
  - intros H0. rewrite trim_depthOf.
    pose proof (segmentsFrom_closed inner 0 [] eq_refl H0) as Hall.
    rewrite Forall_forall in Hall. now apply Hall.
Qed.

Lemma firstn_snoc_nth {A : Type} (j : nat) :
  forall (l : list A) (x : A),
    nth_error l j = Some x -> firstn (S j) l = firstn j l ++ [x].
Proof.
  induction j as [|j IH]; intros [|c l] x Hn; try discriminate.
  - simpl in Hn. injection Hn as ->. reflexivity.
  - change (c :: firstn (S j) l = c :: firstn j l ++ [x]).
    f_equal. now apply IH.
Qed.

(** The text between the first ['('] and the [')'] that the first loop
    finds is closed. *)
Lemma inner_closed (s : jsstring) :
  startsWith LPAREN s = true ->
  findEndParen s <> -1 ->
  depthOf (substring 1 (findEndParen s) s) = 0.
Proof.
  intros Hs Hne.
  destruct (findEndParen_found s Hs Hne) as (j & Hj & Hm).
  pose proof (matchingClose_positive _ _ Hs Hm) as Hpos.
  rewrite Hj, (substring_between j s Hpos).
  destruct (startsWith_cons _ _ Hs) as [rest ->].
  destruct j as [|j]; [lia|]. destruct Hm as (Hn & Hd & _).
  cbn [skipn]. replace (S j - 1)%nat with j by lia.
  unfold depthAt in Hd. rewrite depthOf_firstn_cons in Hd.
  cbn [nth_error] in Hn.
  rewrite (firstn_snoc_nth _ _ _ Hn), depthOf_app in Hd.
  change (delta LPAREN) with 1 in Hd.
  change (depthOf [RPAREN]) with (-1) in Hd. lia.
Qed.

Lemma closed_has_endParen (s : jsstring) :
  startsWith LPAREN s = true -> depthOf s = 0 -> findEndParen s <> -1.
Proof.
  intros Hs H0 E. destruct (startsWith_cons _ _ Hs) as [rest ->].
  unfold findEndParen in E. simpl in E.
  pose proof (findEndParenFrom_none rest 1 1 (List.length rest)
                ltac:(lia) ltac:(lia) E) as H.
  rewrite firstn_all in H. change (1 + depthOf rest = 0) in H0. lia.
Qed.

Lemma internalLabel_named (afterParen : jsstring) :
  exists n, fst (internalLabel afterParen) = Some n /\ n <> [] /\ trim n = n.
Proof.
  assert (H : forall x, exists n,
               Some (strOr (trim x) INTERNAL) = Some n /\ n <> [] /\ trim n = n).
  { intros x. unfold strOr. destruct (trim x) as [|c t] eqn:E; cbn [nonEmpty].
    - exists INTERNAL. repeat split. discriminate.
    - exists (c :: t). split; [reflexivity|]. split; [discriminate|].
      rewrite <- E. apply trim_idempotent. }
  unfold internalLabel.
  destruct (0 <? indexOf COLON afterParen); [apply H|].
  destruct (indexOf COLON afterParen =? 0); [|apply H].
  exists INTERNAL. repeat split. discriminate.
Qed.

Lemma parseLeaf_named (s : jsstring) :
  s <> [] -> trim s = s -> namedNode (parseLeaf s).
Proof.
  intros Hne Ht. unfold parseLeaf, namedNode.
  destruct (0 <? indexOf COLON s) eqn:E.
  - eexists. split; [reflexivity|]. split; [|apply trim_idempotent].
    apply Z.ltb_lt in E. apply trim_nonempty.
    + unfold substring.
      replace (Z.to_nat (Z.min 0 (indexOf COLON s))) with O by lia.
      destruct s as [|c s]; [congruence|].
      destruct (Z.to_nat (Z.max 0 (indexOf COLON (c :: s)))) eqn:En; [lia|].
      discriminate.
    + unfold substring.
      replace (Z.to_nat (Z.min 0 (indexOf COLON s))) with O by lia.
      destruct s as [|c s]; [congruence|].
      destruct (Z.to_nat (Z.max 0 (indexOf COLON (c :: s)))) eqn:En; [lia|].
      pose proof (trim_noLeadingSpace (c :: s)) as Hl. rewrite Ht in Hl.
      exact Hl.
  - exists s. cbn [node_name]. rewrite Ht. auto.
Qed.

Lemma parseNode_named (n : nat) :
  forall str,
    (List.length str < n)%nat ->
    trim str <> [] ->
    (startsWith LPAREN (trim str) = true -> findEndParen (trim str) <> -1) ->
    AllNodes namedNode (parseNode str).
Proof.
  induction n as [|n IH]; intros str Hlen Hne Hfound; [lia|].
  rewrite parseNode_eq. cbv zeta.
  destruct (startsWith LPAREN (trim str)) eqn:Hs.
  - specialize (Hfound eq_refl).
    destruct (findEndParen (trim str) =? -1) eqn:He;
      [apply Z.eqb_eq in He; contradiction|].
    constructor; [apply internalLabel_named|].
    apply Forall_forall. intros t Ht. apply in_map_iff in Ht.
    destruct Ht as (child & <- & Hin).
    pose proof (child_shorter str child _ eq_refl He Hin) as Hshort.
    destruct (splitChildren_pieces _ _ Hin) as (Hc1 & Hc2 & Hc3).
    apply IH; [lia|now rewrite Hc2|].
    rewrite Hc2. intros Hcs. apply closed_has_endParen; [exact Hcs|].
    apply Hc3. now apply inner_closed.
  - pose proof (parseLeaf_named (trim str) Hne (trim_idempotent str)) as H.
    unfold parseLeaf in *.
    destruct (0 <? indexOf COLON (trim str)); constructor; auto.
Qed.

(** X1: the node without a name occurs at the root only. The tree that
    [parseNewick] returns is that node itself (the first ['('] has no
    matching [')']), or the input is blank, or every node of the tree has
    a name that is not empty and has no white space at either end; so
    the renderer's placeholder shows for the first two cases only. *)
Theorem parseNewick_names (newick : jsstring) :
  parseNewick newick = emptyNode
  \/ trim (replaceTrailingSemicolon newick) = []
  \/ AllNodes namedNode (parseNewick newick).
Proof.
  unfold parseNewick.
  set (s := trim (replaceTrailingSemicolon newick)).
  assert (Ht : trim s = s) by apply trim_idempotent.
  destruct s as [|c s'] eqn:Es; [right; now left|]. rewrite <- Es in *.
  destruct (startsWith LPAREN s) eqn:Hs.
  - destruct (Z.eq_dec (findEndParen s) (-1)) as [E|E].
    + left. rewrite parseNode_eq. cbv zeta. rewrite Ht, Hs, E. reflexivity.
    + right. right. apply (parseNode_named (S (List.length s))); [lia| |].
      * rewrite Ht, Es. discriminate.
      * now rewrite Ht.
  - right. right. apply (parseNode_named (S (List.length s))); [lia| |].
    + rewrite Ht, Es. discriminate.
    + rewrite Ht, Hs. discriminate.
Qed.

(** [lia] on lengths of strings, whichever name their type goes by. *)
Ltac string_lia := unfold jsstring, char in *; lia.

Lemma replaceTrailingSemicolon_space (s ws : jsstring) :
  ws <> [] -> allWhiteSpace ws ->
  replaceTrailingSemicolon (s ++ ws) = s ++ ws.
Proof.
  intros Hne Hws. apply replaceTrailingSemicolon_other.
  unfold endsWith. rewrite rev_app_distr.
  apply Forall_rev in Hws. destruct (rev ws) as [|c r] eqn:E.
  - apply (f_equal (@rev char)) in E. rewrite rev_involutive in E.
    now destruct Hne.
  - apply Forall_inv in Hws. simpl.
    apply N.eqb_neq. intros ->. discriminate Hws.
Qed.

Lemma trim_app_space (s ws : jsstring) :
  noLeadingSpace s -> allWhiteSpace ws -> trim (s ++ ws) = trim s.
Proof.
  intros Hl Hws. unfold trim.
  destruct s as [|c s].
  - simpl. rewrite <- (app_nil_r ws) at 1.
    rewrite (trimStart_app_space ws [] Hws). reflexivity.
  - rewrite (trimStart_id ((c :: s) ++ ws)) by exact Hl.
    rewrite (trimStart_id (c :: s)) by exact Hl.
    now apply trimEnd_app_space.
Qed.

(** White space behind the text keeps [parseNewick] from removing the
    semicolon, which then goes to [parseNode] with the rest. *)
Lemma parseNewick_trailing_space (s ws : jsstring) :
  ws <> [] -> allWhiteSpace ws -> noLeadingSpace s ->
  parseNewick (s ++ ws) = parseNode s.
Proof.
  intros Hne Hws Hl. unfold parseNewick.
  rewrite (replaceTrailingSemicolon_space s ws Hne Hws).
  rewrite (trim_app_space s ws Hl Hws). apply parseNode_trim.
Qed.

Lemma matchingClose_last_trim (x : jsstring) (j : nat) :
  startsWith LPAREN x = true -> matchingClose x j ->
  List.length x = S j -> trim x = x.
Proof.
  intros Hs (Hn & _) Hlen. destruct (startsWith_cons _ _ Hs) as [rest Hx].
  apply trim_id; [now rewrite Hx|].
  assert (Hlast : x = firstn j x ++ [RPAREN]).
  { rewrite <- (firstn_snoc_nth j x RPAREN Hn).
    symmetry. apply firstn_all2. string_lia. }
  rewrite Hlast, rev_app_distr. reflexivity.
Qed.

(** X2: the semicolon is removed before the white space is. For a
    parenthesised tree text [x] that ends with its closing parenthesis,
    [x;] parses with the root named ["Internal"], and [x;] followed by
    white space (a line end, say) parses to the same children under a
    root named [";"]. *)
Theorem parseNewick_semicolon_then_space (x ws : jsstring) (j : nat) :
  startsWith LPAREN x = true ->
  matchingClose x j ->
  List.length x = S j ->
  ws <> [] -> allWhiteSpace ws ->
  node_name (parseNewick (x ++ [SEMICOLON])) = Some INTERNAL
  /\ parseNewick (x ++ SEMICOLON :: ws)
     = Node (node_children (parseNewick (x ++ [SEMICOLON])))
            (Some [SEMICOLON]) zero.
Proof.
  intros Hs Hm Hlen Hne Hws.
  pose proof (matchingClose_last_trim x j Hs Hm Hlen) as Ht.
  pose proof (matchingClose_positive _ _ Hs Hm) as Hpos.
  assert (H1 : parseNewick (x ++ [SEMICOLON])
               = Node (List.map parseNode
                         (splitChildren (firstn (j - 1) (skipn 1 x))))
                      (Some INTERNAL) zero).
  { unfold parseNewick. rewrite replaceTrailingSemicolon_snoc, parseNode_trim.
    rewrite (parseNode_internal x j) by (rewrite ?Ht; assumption).
    rewrite Ht, (substring_between j x Hpos).
    rewrite (@skipn_all2 char (S j) x) by string_lia. reflexivity. }
  rewrite H1. split; [reflexivity|]. cbn [node_children].
  change (x ++ SEMICOLON :: ws) with (x ++ [SEMICOLON] ++ ws).
  rewrite app_assoc.
  destruct (startsWith_cons _ _ Hs) as [rest Hx].
  rewrite (parseNewick_trailing_space (x ++ [SEMICOLON]) ws Hne Hws)
    by (now rewrite Hx).
  assert (Ht' : trim (x ++ [SEMICOLON]) = x ++ [SEMICOLON]).
  { apply trim_id; [now rewrite Hx|]. rewrite rev_app_distr. reflexivity. }
  rewrite (parseNode_internal (x ++ [SEMICOLON]) j).
  - rewrite Ht', (substring_between j _ Hpos).
    destruct j as [|j]; [string_lia|].
    replace (skipn 1 (x ++ [SEMICOLON])) with (skipn 1 x ++ [SEMICOLON])
      by (rewrite Hx; reflexivity).
    rewrite firstn_app.
    replace (S j - 1 - List.length (skipn 1 x))%nat with O
      by (rewrite length_skipn; string_lia).
    cbn [firstn]. rewrite app_nil_r.
    rewrite skipn_app.
    rewrite (@skipn_all2 char (S (S j)) x) by string_lia.
    replace (S (S j) - List.length x)%nat with O by string_lia.
    reflexivity.
  - rewrite Ht'. now rewrite Hx.
  - rewrite Ht'. now apply matchingClose_prefix.
Qed.

Lemma matchingClose_pair : matchingClose (js "(A,B)") 4.
Proof.
  split; [reflexivity|]. split; [reflexivity|].
  intros k Hk.
  assert (k = 1 \/ k = 2 \/ k = 3 \/ k = 4)%nat as [-> | [-> | [-> | ->]]]
    by lia; reflexivity.
Defined.

(** ["(A,B);"] followed by a line feed. *)
Lemma parseNewick_semicolon_then_space_witness :
  node_name (parseNewick (js "(A,B);")) = Some (js "Internal")
  /\ parseNewick (js "(A,B);" ++ [NEWLINE])
     = Node (node_children (parseNewick (js "(A,B);"))) (Some (js ";")) zero.
Proof.
  apply (parseNewick_semicolon_then_space (js "(A,B)") [NEWLINE] 4).
  - reflexivity.
  - exact matchingClose_pair.
  - reflexivity.
  - discriminate.
  - repeat constructor.
Defined.

Lemma replaceTrailingSemicolon_leading (ws s : jsstring) :
  allWhiteSpace ws ->
  replaceTrailingSemicolon (ws ++ s) = ws ++ replaceTrailingSemicolon s.
Proof.
  intros Hws. unfold replaceTrailingSemicolon. rewrite rev_app_distr.
  destruct (rev s) as [|c r] eqn:E.
  - apply (f_equal (@rev char)) in E. rewrite rev_involutive in E.
    simpl in E. subst s. rewrite !app_nil_r. simpl.
    apply Forall_rev in Hws.
    destruct (rev ws) as [|c r] eqn:E'; [reflexivity|].
    apply Forall_inv in Hws.
    destruct (N.eqb_spec c SEMICOLON) as [->|]; [discriminate Hws|reflexivity].
  - cbn [app]. destruct (c =? SEMICOLON)%N; [|reflexivity].
    now rewrite rev_app_distr, rev_involutive.
Qed.

(** X3: white space in front of the text makes no difference. *)
Theorem parseNewick_leading_space (ws s : jsstring) :
  allWhiteSpace ws -> parseNewick (ws ++ s) = parseNewick s.
Proof.
  intros Hws. unfold parseNewick.
  rewrite (replaceTrailingSemicolon_leading ws s Hws).
  unfold trim. now rewrite (trimStart_app_space ws _ Hws).
Qed.

(** Two spaces and a line feed in front of ["(A,B);"]. *)
Lemma parseNewick_leading_space_witness :
  parseNewick (js "  " ++ [NEWLINE] ++ js "(A,B);") = parseNewick (js "(A,B);").
Proof.
  apply (parseNewick_leading_space (js "  " ++ [NEWLINE]) (js "(A,B);")).
  repeat constructor.
Defined.

(** ** The size of the parsed tree *)

Lemma list_sum_cons (a : nat) (l : list nat) :
  list_sum (a :: l) = (a + list_sum l)%nat.
Proof. reflexivity. Qed.

Lemma joinWith_length (sep : char) (segs : list jsstring) :
  segs <> [] ->
  (List.length (joinWith sep segs) + 1
   = list_sum (List.map (@List.length char) segs) + List.length segs)%nat.
Proof.
  induction segs as [|x segs IH]; [congruence|]. intros _.
  destruct segs as [|y segs].
  - simpl. string_lia.
  - rewrite joinWith_cons by discriminate.
    specialize (IH ltac:(discriminate)).
    rewrite length_app. cbn [List.length List.map] in *.
    rewrite !list_sum_cons in *. string_lia.
Qed.

Lemma kept_pieces_length (segs : list jsstring) :
  (list_sum (List.map (@List.length char)
               (List.map trim (filter notBlank segs)))
   + List.length (filter notBlank segs)
   <= list_sum (List.map (@List.length char) segs) + List.length segs)%nat.
Proof.
  induction segs as [|x segs IH]; [simpl; lia|].
  cbn [filter]. pose proof (trim_length x) as Hx.
  destruct (notBlank x); cbn [List.map List.length];
    rewrite !list_sum_cons; string_lia.
Qed.

(** The child strings and the commas between them fit into the text they
    are cut from. *)
Lemma splitChildren_length (inner : jsstring) :
  (list_sum (List.map (@List.length char) (splitChildren inner))
   + List.length (splitChildren inner)
   <= List.length inner + 1)%nat.
Proof.
  unfold splitChildren. rewrite splitChildrenFrom_segments. cbn [app].
  rewrite length_map.
  pose proof (kept_pieces_length (segmentsFrom inner 0 [])) as H1.
  pose proof (joinWith_length COMMA (segmentsFrom inner 0 [])
                (segmentsFrom_nonempty inner 0 [])) as H2.
  rewrite segmentsFrom_join in H2. cbn [app] in H2. string_lia.
Qed.

Lemma list_sum_le {A : Type} (f g : A -> nat) (l : list A) :
  (forall a, In a l -> f a <= g a)%nat ->
  (list_sum (List.map f l) <= list_sum (List.map g l))%nat.
Proof.
  induction l as [|a l IH]; intros H; [simpl; lia|].
  cbn [List.map]. rewrite !list_sum_cons.
  pose proof (H a (or_introl eq_refl)).
  specialize (IH (fun b Hb => H b (or_intror Hb))). lia.
Qed.

Lemma parseNode_size (n : nat) :
  forall str,
    (List.length str < n)%nat ->
    trim str <> [] ->
    (size (parseNode str) <= List.length (trim str))%nat.
Proof.
  induction n as [|n IH]; intros str Hlen Hne; [lia|].
  assert (H1 : (1 <= List.length (trim str))%nat)
    by (destruct (trim str); [congruence|simpl; lia]).
  rewrite parseNode_eq. cbv zeta.
  destruct (startsWith LPAREN (trim str)) eqn:Hs.
  - destruct (findEndParen (trim str) =? -1) eqn:He; [exact H1|].
    pose proof He as Hne'. apply Z.eqb_neq in Hne'.
    pose proof (findEndParen_bounds _ Hne') as Hb.
    pose proof (substring_length 1 (findEndParen (trim str)) (trim str)) as Hsub.
    pose proof (splitChildren_length
                  (substring 1 (findEndParen (trim str)) (trim str))) as Hfit.
    cbn [size]. rewrite map_map.
    assert (Hsum :
      (list_sum (List.map (fun c => size (parseNode c))
                   (splitChildren
                      (substring 1 (findEndParen (trim str)) (trim str))))
       <= list_sum (List.map (@List.length char)
                      (splitChildren
                         (substring 1 (findEndParen (trim str)) (trim str)))))%nat).
    { apply list_sum_le. intros c Hc.
      pose proof (child_shorter str c _ eq_refl He Hc) as Hshort.
      destruct (splitChildren_pieces _ _ Hc) as (Hc1 & Hc2 & _).
      rewrite <- Hc2 at 2. apply IH; [lia|now rewrite Hc2]. }
    string_lia.
  - unfold parseLeaf. destruct (0 <? indexOf COLON (trim str)); exact H1.
Qed.

Lemma replaceTrailingSemicolon_length (s : jsstring) :
  (List.length (replaceTrailingSemicolon s) <= List.length s)%nat.
Proof.
  unfold replaceTrailingSemicolon.
  destruct (rev s) as [|c r] eqn:E; [lia|].
  destruct (c =? SEMICOLON)%N; [|lia].
  apply (f_equal (@List.length char)) in E.
  rewrite length_rev in *. simpl in E. string_lia.
Qed.

(** ** Names are parts of the input *)

Lemma trim_incl (c : char) (s : jsstring) : In c (trim s) -> In c s.
Proof.
  intros H. destruct (trim_infix s) as (a & b & E). rewrite E.
  apply in_or_app. right. apply in_or_app. now left.
Qed.

Lemma firstn_incl (c : char) (n : nat) (s : jsstring) :
  In c (firstn n s) -> In c s.
Proof.
  intros H. rewrite <- (firstn_skipn n s). apply in_or_app. now left.
Qed.

Lemma skipn_incl (c : char) (n : nat) (s : jsstring) :
  In c (skipn n s) -> In c s.
Proof.
  intros H. rewrite <- (firstn_skipn n s). apply in_or_app. now right.
Qed.

Lemma substring_incl (c : char) (a b : Z) (s : jsstring) :
  In c (substring a b s) -> In c s.
Proof. unfold substring. intros H. eapply skipn_incl, firstn_incl, H. Qed.

Lemma splitChildren_incl (c : char) (child inner : jsstring) :
  In child (splitChildren inner) -> In c child -> In c inner.
Proof.
  unfold splitChildren. intros H Hc.
  apply splitChildrenFrom_infix in H. destruct H as [[]|(a & b & E)].
  cbn [app] in E. rewrite E. apply in_or_app. right. apply in_or_app. now left.
Qed.

Lemma replaceTrailingSemicolon_incl (c : char) (s : jsstring) :
  In c (replaceTrailingSemicolon s) -> In c s.
Proof.
  unfold replaceTrailingSemicolon.
  destruct (rev s) as [|x r] eqn:E; [auto|].
  destruct (x =? SEMICOLON)%N; [|auto].
  intros H. apply in_rev. rewrite E. right. now apply in_rev.
Qed.

Lemma strOr_single_line (x : jsstring) :
  ~ In NEWLINE x -> ~ In NEWLINE (strOr x INTERNAL).
Proof.
  unfold strOr. destruct (nonEmpty x); [auto|].
  intros _ H. repeat (destruct H as [H|H]; [discriminate H|]). exact H.
Qed.

Lemma internalLabel_single_line (afterParen : jsstring) :
  ~ In NEWLINE afterParen ->
  match fst (internalLabel afterParen) with
  | Some n => ~ In NEWLINE n
  | None => True
  end.
Proof.
  intros Hn. unfold internalLabel.
  destruct (0 <? indexOf COLON afterParen); cbn [fst].
  - apply strOr_single_line. intros H. eapply Hn, substring_incl, trim_incl, H.
  - destruct (indexOf COLON afterParen =? 0); cbn [fst].
    + apply (strOr_single_line []). intros [].
    + apply strOr_single_line. intros H. eapply Hn, trim_incl, H.
Qed.

Lemma parseLeaf_single_line (s : jsstring) :
  ~ In NEWLINE s -> singleLineName (parseLeaf s).
Proof.
  intros Hn. unfold parseLeaf, singleLineName.
  destruct (0 <? indexOf COLON s); cbn [node_name]; intros H.
  - eapply Hn, substring_incl, trim_incl, H.
  - eapply Hn, trim_incl, H.
Qed.

Lemma parseNode_single_line (n : nat) :
  forall str,
    (List.length str < n)%nat ->
    ~ In NEWLINE str ->
    AllNodes singleLineName (parseNode str).
Proof.
  induction n as [|n IH]; intros str Hlen Hn; [lia|].
  assert (Ht : ~ In NEWLINE (trim str)) by (intros H; eapply Hn, trim_incl, H).
  rewrite parseNode_eq. cbv zeta.
  destruct (startsWith LPAREN (trim str)) eqn:Hs.
  - destruct (findEndParen (trim str) =? -1) eqn:He;
      [constructor; [exact I|constructor]|].
    constructor.
    + apply internalLabel_single_line. intros H. eapply Ht, skipn_incl, H.
    + apply Forall_forall. intros t Hin. apply in_map_iff in Hin.
      destruct Hin as (child & <- & Hin).
      pose proof (child_shorter str child _ eq_refl He Hin) as Hshort.
      apply IH; [lia|]. intros H.
      eapply Ht, substring_incl, splitChildren_incl; [exact Hin|exact H].
  - pose proof (parseLeaf_single_line (trim str) Ht) as H.
    unfold parseLeaf in *.
    destruct (0 <? indexOf COLON (trim str)); constructor; auto.
Qed.

(** A text without a line feed is parsed into names without one. *)
Lemma parseNewick_single_line (newick : jsstring) :
  ~ In NEWLINE newick -> AllNodes singleLineName (parseNewick newick).
Proof.
  intros Hn. unfold parseNewick.
  apply (parseNode_single_line
           (S (List.length (trim (replaceTrailingSemicolon newick)))));
    [lia|].
  intros H. eapply Hn, replaceTrailingSemicolon_incl, trim_incl, H.
Qed.

Lemma parseNewick_nodes (newick : jsstring) :
  (size (parseNewick newick) <= Nat.max 1 (List.length newick))%nat.
Proof.
  unfold parseNewick.
  pose proof (trim_length (replaceTrailingSemicolon newick)) as H1.
  pose proof (replaceTrailingSemicolon_length newick) as H2.
  pose proof (trim_idempotent (replaceTrailingSemicolon newick)) as Ht.
  remember (trim (replaceTrailingSemicolon newick)) as s eqn:Es.
  destruct (list_eq_dec N.eq_dec s []) as [E|E].
  - subst s. rewrite E, parseNode_eq.
    change (1 <= Nat.max 1 (List.length newick))%nat. lia.
  - pose proof (parseNode_size (S (List.length s)) s ltac:(lia)) as H3.
    rewrite Ht in H3. specialize (H3 E). string_lia.
Qed.

(** X4: the parsed tree has at most as many nodes as the input has code
    units (one node for the empty input); and the rendering of the tree
    parsed from an input without a line feed has at most that many
    lines of text. *)
Theorem parseNewick_size (newick : jsstring) :
  (size (parseNewick newick) <= Nat.max 1 (List.length newick))%nat
  /\ (~ In NEWLINE newick ->
      exists lines,
        split NEWLINE (render (parseNewick newick)) = lines ++ [[]]
        /\ (List.length lines <= Nat.max 1 (List.length newick))%nat).
Proof.
  split; [apply parseNewick_nodes|].
  intros Hn. exists (specLines (parseNewick newick) [] true). split.
  - apply renderTreeAscii_lines; [intros []|].
    now apply parseNewick_single_line.
  - rewrite specLines_length. apply parseNewick_nodes.
Qed.

(** ** The indentation of the rendering *)

Lemma siblings_lineAtDepth (below : jsstring) (d : nat) (cs : list TreeNode) :
  Forall (fun c => forall prefix isLast d,
              List.length prefix = (4 * d)%nat -> Forall indentChar prefix ->
              Forall2 lineAtDepth (specLines c prefix isLast) (depths c d)) cs ->
  List.length below = (4 * S d)%nat -> Forall indentChar below ->
  Forall2 lineAtDepth
    ((fix siblings (cs : list TreeNode) : list jsstring :=
        match cs with
        | [] => []
        | c :: rest =>
            specLines c below (match rest with [] => true | _ => false end)
            ++ siblings rest
        end) cs)
    ((fix below (cs : list TreeNode) : list nat :=
        match cs with
        | [] => []
        | c :: rest => depths c (S d) ++ below rest
        end) cs).
Proof.
  intros Hall Hlen Hind.
  induction Hall as [|c cs Hc _ IH]; [constructor|].
  apply Forall2_app; [now apply Hc|exact IH].
Qed.

Lemma specLines_lineAtDepth (tree : TreeNode) :
  forall prefix isLast d,
    List.length prefix = (4 * d)%nat -> Forall indentChar prefix ->
    Forall2 lineAtDepth (specLines tree prefix isLast) (depths tree d).
Proof.
  induction tree as [children name length IH] using TreeNode_ind'.
  intros prefix isLast d Hlen Hind. cbn [specLines depths].
  constructor.
  - unfold lineAtDepth, specLine.
    exists prefix, (if isLast then LAST_CONNECTOR else MID_CONNECTOR).
    eexists. split; [reflexivity|]. split; [exact Hlen|].
    split; [exact Hind|]. destruct isLast; auto.
  - apply siblings_lineAtDepth; [exact IH| |].
    + rewrite length_app, Hlen. destruct isLast; simpl; lia.
    + apply Forall_app. split; [exact Hind|].
      destruct isLast.
      * repeat (constructor; [left; reflexivity|]). constructor.
      * constructor; [right; reflexivity|].
        repeat (constructor; [left; reflexivity|]). constructor.
Qed.

(** X5: in the rendering of a tree whose names hold no line feed, the
    line of text of a node at depth [d] starts with [4 * d] characters
    of indentation, spaces and bars only, followed by a connector: the
    lines of the text and the depths of the nodes in pre-order go
    together one by one. *)
Theorem render_indentation (tree : TreeNode) :
  AllNodes singleLineName tree ->
  exists lines,
    split NEWLINE (render tree) = lines ++ [[]]
    /\ Forall2 lineAtDepth lines (depths tree 0).
Proof.
  intros Hall. exists (specLines tree [] true). split.
  - apply renderTreeAscii_lines; [intros []|exact Hall].
  - apply specLines_lineAtDepth; [reflexivity|constructor].
Qed.

(** The tree parsed from ["((A:0.1,B:0.2):0.0);"]. *)
Lemma render_indentation_witness :
  exists lines,
    split NEWLINE (render (parseNewick (js "((A:0.1,B:0.2):0.0);")))
    = lines ++ [[]]
    /\ Forall2 lineAtDepth lines [0; 1; 2; 2]%nat.
Proof.
  apply (render_indentation (parseNewick (js "((A:0.1,B:0.2):0.0);"))).
  apply parseNewick_single_line.
  intros H. repeat (destruct H as [H|H]; [discriminate H|]). exact H.
Defined.

(* ===================================================================== *)
(** * The list of accessions *)
(* ===================================================================== *)

Lemma splitFrom_no_sep (sep : char) (s : jsstring) :
  forall current,
    ~ In sep current ->
    Forall (fun p => ~ In sep p) (splitFrom sep s current).
Proof.
  induction s as [|c s IH]; intros current Hc; cbn [splitFrom].
  - now repeat constructor.
  - destruct (N.eqb_spec c sep) as [->|Hne].
    + constructor; [exact Hc|]. apply IH. intros [].
    + apply IH. intros H. apply in_app_or in H.
      destruct H as [H|[H|[]]]; [now apply Hc|congruence].
Qed.

(** [split] undoes a join of texts that do not hold the separator. *)
Lemma split_joinWith (sep : char) (lines : list jsstring) :
  lines <> [] ->
  Forall (fun l => ~ In sep l) lines ->
  split sep (joinWith sep lines) = lines.
Proof.
  intros Hne Hall. unfold split. revert Hne.
  induction Hall as [|l lines Hl Hall IH]; intros Hne; [now destruct Hne|].
  destruct lines as [|l' lines].
  - simpl. rewrite <- (app_nil_r l) at 1.
    now rewrite (splitFrom_piece sep l [] [] Hl).
  - rewrite joinWith_cons by discriminate.
    rewrite (splitFrom_piece sep l _ [] Hl). cbn [app splitFrom].
    rewrite N.eqb_refl. f_equal. apply IH. discriminate.
Qed.

Lemma trimStart_all_space (ws : jsstring) : allWhiteSpace ws -> trimStart ws = [].
Proof. induction 1 as [|c ws Hc _ IH]; [reflexivity|]. simpl. now rewrite Hc. Qed.

(** White space behind a text does not change what [trim] gives. *)
Lemma trim_app_any_space (s ws : jsstring) :
  allWhiteSpace ws -> trim (s ++ ws) = trim s.
Proof.
  intros Hws. induction s as [|c s IH].
  - unfold trim. simpl. now rewrite (trimStart_all_space ws Hws).
  - destruct (isWhiteSpace c) eqn:E.
    + unfold trim in *. simpl. now rewrite E.
    + apply (trim_app_space (c :: s) ws); [exact E|exact Hws].
Qed.

Lemma accessionList_entries (accessions a : jsstring) :
  In a (accessionList accessions) ->
  a <> [] /\ trim a = a /\ ~ In NEWLINE a.
Proof.
  unfold accessionList. intros H. apply filter_In in H. destruct H as [H Hne].
  apply in_map_iff in H. destruct H as (p & <- & Hp).
  split; [now destruct (trim p)|]. split; [apply trim_idempotent|].
  pose proof (splitFrom_no_sep NEWLINE accessions [] (fun F => F)) as Hall.
  rewrite Forall_forall in Hall. specialize (Hall p Hp).
  destruct (trim_infix p) as (x & y & Hxy). intros Hin. apply Hall.
  rewrite Hxy. apply in_or_app. right. apply in_or_app. now left.
Qed.

(** X6: every accession that [handleAnalyze] reads from the text area is
    not empty, has no white space at either end, and holds no line
    feed. *)
Theorem accessionList_clean (accessions a : jsstring) :
  In a (accessionList accessions) ->
  a <> [] /\ trim a = a /\ ~ In NEWLINE a.
Proof. apply accessionList_entries. Qed.

(** The text area as first rendered and its second accession. *)
Lemma accessionList_clean_witness :
  js "P17763" <> [] /\ trim (js "P17763") = js "P17763"
  /\ ~ In NEWLINE (js "P17763").
Proof.
  apply (accessionList_clean
           (js "P03314" ++ NEWLINE :: js " P17763 " ++ NEWLINE :: js "P29991")).
  right. left. reflexivity.
Defined.

(** X7: for lines that hold no line feed, joined by line feeds, the
    accessions are the lines trimmed, in order, without the blank ones
    and with repetitions kept; a carriage return at the end of every
    line makes no difference. *)
Theorem accessionList_lines (lines : list jsstring) :
  Forall (fun l => ~ In NEWLINE l) lines ->
  accessionList (joinWith NEWLINE lines) = filter nonEmpty (List.map trim lines)
  /\ accessionList (joinWith NEWLINE (List.map (fun l => l ++ [13%N]) lines))
     = accessionList (joinWith NEWLINE lines).
Proof.
  intros Hall.
  assert (H : forall ls, Forall (fun l => ~ In NEWLINE l) ls ->
            accessionList (joinWith NEWLINE ls)
            = filter nonEmpty (List.map trim ls)).
  { intros ls Hls. unfold accessionList. destruct ls as [|l ls]; [reflexivity|].
    now rewrite split_joinWith by (auto; discriminate). }
  split; [now apply H|].
  rewrite (H lines Hall), H.
  - rewrite map_map. f_equal. apply map_ext. intros l.
    apply trim_app_any_space. repeat constructor.
  - apply Forall_map. eapply Forall_impl; [|exact Hall].
    intros l Hl Hin. apply in_app_or in Hin.
    destruct Hin as [Hin|[Hin|[]]]; [now apply Hl|discriminate Hin].
Qed.

(** Three lines, one of them blank. *)
Lemma accessionList_lines_witness :
  accessionList (js " P03314" ++ NEWLINE :: js "  " ++ NEWLINE :: js "P17763")
  = [js "P03314"; js "P17763"].
Proof.
  refine (proj1 (accessionList_lines [js " P03314"; js "  "; js "P17763"] _)).
  repeat constructor; intros H; vm_compute in H;
    repeat (destruct H as [H|H]; [discriminate H|]); exact H.
Defined.

(* ===================================================================== *)
(** * The component [Home] *)
(* ===================================================================== *)

Section HomeProperties.

Variable Data : Type.
Variable toLowerCase : jsstring -> jsstring.

Lemma orUndefined_not_empty (s : jsstring) : orUndefined s <> Some [].
Proof. unfold orUndefined. destruct s; simpl; congruence. Qed.

Ltac unfold_state :=
  cbv beta iota zeta delta
    [Home.analyzeStart Home.analyzeFinish Home.handleAnalyze
     Home.handleFileChange Home.clearFile Home.analyzeDisabled Home.step
     Home.setAccessions Home.setLoading Home.setResults Home.setError
     Home.setInputMode Home.setSelectedFile Home.setTrimMotif
     Home.setTrimBeforeMotif Home.accessions Home.loading Home.results
     Home.error Home.inputMode Home.selectedFile Home.trimMotif
     Home.trimBeforeMotif Home.fastaForm fst snd].

(** The request of [handleAnalyze], read off the state before the
    click. *)
Lemma analyzeStart_request (st : Home.State Data) :
  snd (Home.analyzeStart st)
  = match Home.inputMode st with
    | uniprot =>
        if (List.length (accessionList (Home.accessions st)) <? 2)%nat
        then None
        else Some (PostAnalyze (accessionList (Home.accessions st))
                               (orUndefined (Home.trimMotif st))
                               (orUndefined (Home.trimBeforeMotif st)))
    | fasta =>
        match Home.selectedFile st with
        | None => None
        | Some f => Some (PostAnalyzeFasta (Home.fastaForm f st))
        end
    end.
Proof.
  destruct st as [acc ld res err mode sel tm tb]. unfold_state.
  destruct mode;
    [destruct (List.length (accessionList acc) <? 2)%nat|destruct sel];
    reflexivity.
Qed.

Lemma fastaForm_wellFormed (f : File) (st : Home.State Data) :
  Home.wellFormed (PostAnalyzeFasta (Home.fastaForm f st)).
Proof.
  destruct st as [acc ld res err mode sel tm tb]. unfold_state.
  exists f. eexists. split; [reflexivity|].
  destruct tm as [|c1 m1], tb as [|c2 m2]; cbn; split.
  all: try (repeat (apply Forall_cons;
                    [eexists; split; [reflexivity|discriminate]|]);
            apply Forall_nil).
  all: repeat (apply NoDup_cons;
               [cbn; intros H; repeat destruct H as [H|H];
                try discriminate H; exact H|]).
  all: apply NoDup_nil.
Qed.

(** X8: every request that [handleAnalyze] sends is well formed. For
    UniProt accessions it carries at least two of them, each not empty,
    without white space at either end and without a line feed, and no
    empty motif; for a FASTA file the form starts with the file, and
    holds each motif at most once and never empty. *)
Theorem analyzeStart_wellFormed (st : Home.State Data) (r : Request) :
  snd (Home.analyzeStart st) = Some r -> Home.wellFormed r.
Proof.
  rewrite analyzeStart_request.
  destruct (Home.inputMode st).
  - destruct (List.length (accessionList (Home.accessions st)) <? 2)%nat eqn:E;
      [discriminate|].
    intros H. injection H as <-. apply Nat.ltb_ge in E.
    split; [exact E|]. split.
    + apply Forall_forall. intros a. apply accessionList_entries.
    + split; apply orUndefined_not_empty.
  - destruct (Home.selectedFile st) as [f|]; [|discriminate].
    intros H. injection H as <-. apply fastaForm_wellFormed.
Qed.


(** The state at the [await] of [handleAnalyze], or at its early
    return. *)
Lemma analyzeStart_state (st : Home.State Data) :
  let st' := fst (Home.analyzeStart st) in
  Home.accessions st' = Home.accessions st
  /\ Home.inputMode st' = Home.inputMode st
  /\ Home.selectedFile st' = Home.selectedFile st
  /\ Home.trimMotif st' = Home.trimMotif st
  /\ Home.trimBeforeMotif st' = Home.trimBeforeMotif st
  /\ Home.results st' = None
  /\ match snd (Home.analyzeStart st) with
     | Some _ => Home.error st' = [] /\ Home.loading st' = true
     | None => Home.error st' <> [] /\ Home.loading st' = false
     end.
Proof.
  destruct st as [acc ld res err mode sel tm tb]. unfold_state.
  destruct mode;
    [destruct (List.length (accessionList acc) <? 2)%nat|destruct sel];
    (do 6 (split; [reflexivity|])); split;
    try reflexivity; discriminate.
Qed.



Lemma step_selectedFile (st : Home.State Data) (e : Home.Event Data) (f : File) :
  (forall g, Home.selectedFile st = Some g -> Home.accepted toLowerCase g) ->
  Home.selectedFile (Home.step toLowerCase st e) = Some f -> Home.accepted toLowerCase f.
Proof.
  intros Hinv. destruct e; cbn [Home.step].
  - unfold Home.analyzeStart.
    cbn [Home.inputMode Home.setResults Home.setError Home.setLoading
         Home.accessions Home.selectedFile].
    destruct (Home.inputMode st);
      [destruct (List.length (accessionList (Home.accessions st)) <? 2)%nat
      |destruct (Home.selectedFile st) eqn:E];
      cbn; try rewrite ?E; intros H; try apply Hinv; congruence.
  - destruct outcome; cbn; apply Hinv.
  - unfold Home.handleFileChange. destruct file as [g|]; [|apply Hinv].
    destruct (Home.hasValidExtension toLowerCase (file_name g)) eqn:Hext;
      cbn [negb]; [|discriminate].
    destruct (Home.maxSize <? file_size g) eqn:Hsize; [discriminate|].
    cbn. intros H. injection H as <-. apply Z.ltb_ge in Hsize. now split.
  - discriminate.
  - apply Hinv.
  - apply Hinv.
  - apply Hinv.
  - apply Hinv.
Qed.

Lemma after_selectedFile (events : list (Home.Event Data)) (f : File) :
  Home.selectedFile (Home.after toLowerCase events) = Some f -> Home.accepted toLowerCase f.
Proof.
  unfold Home.after. revert f.
  induction events as [|e events IH] using rev_ind; intros f.
  - discriminate.
  - rewrite fold_left_app. cbn [fold_left]. now apply step_selectedFile.
Qed.

(** X10: whatever happens to the page from its first render on, a file
    that is selected has passed both checks of [handleFileChange]: its
    name in lower case ends in [.fasta], [.fa] or [.faa], with or without
    [.txt] behind, and its size is at most 10485760 bytes. *)
Theorem selectedFile_accepted (events : list (Home.Event Data)) (f : File) :
  Home.selectedFile (Home.after toLowerCase events) = Some f -> Home.accepted toLowerCase f.
Proof. apply after_selectedFile. Qed.

(** X11: a click on the Analyze button while it is enabled on the FASTA
    tab sends a request, never the message that asks for a file; the
    form starts with the selected file, which has passed both checks. *)
Theorem fasta_request_accepted (events : list (Home.Event Data)) :
  Home.analyzeDisabled (Home.after toLowerCase events) = false ->
  Home.inputMode (Home.after toLowerCase events) = fasta ->
  exists f rest,
    Home.selectedFile (Home.after toLowerCase events) = Some f
    /\ Home.accepted toLowerCase f
    /\ snd (Home.analyzeStart (Home.after toLowerCase events))
       = Some (PostAnalyzeFasta ((js "file", FileValue f) :: rest)).
Proof.
  intros Hdis Hmode. unfold Home.analyzeDisabled in Hdis. rewrite Hmode in Hdis.
  apply orb_false_elim in Hdis. destruct Hdis as [_ Hsel].
  destruct (Home.selectedFile (Home.after toLowerCase events)) as [f|] eqn:Hf; [|discriminate].
  exists f. eexists. split; [reflexivity|].
  split; [now apply (after_selectedFile events)|].
  rewrite analyzeStart_request, Hmode, Hf. reflexivity.
Qed.

(** X12: [handleFileChange] on a file either selects it and clears the
    error message, and then the file has passed both checks and the
    input element keeps its value; or it selects no file, shows an error
    message and resets the input element, and then the file has failed
    a check. The rest of the state is as it was. *)
Theorem handleFileChange_outcome (f : File) (st : Home.State Data) :
  let st' := fst (Home.handleFileChange toLowerCase (Some f) st) in
  let reset := snd (Home.handleFileChange toLowerCase (Some f) st) in
  ((Home.selectedFile st' = Some f /\ Home.error st' = [] /\ reset = false
    /\ Home.accepted toLowerCase f)
   \/ (Home.selectedFile st' = None /\ Home.error st' <> [] /\ reset = true
       /\ ~ Home.accepted toLowerCase f))
  /\ Home.accessions st' = Home.accessions st
  /\ Home.loading st' = Home.loading st
  /\ Home.results st' = Home.results st
  /\ Home.inputMode st' = Home.inputMode st
  /\ Home.trimMotif st' = Home.trimMotif st
  /\ Home.trimBeforeMotif st' = Home.trimBeforeMotif st.
Proof.
  destruct st as [acc ld res err mode sel tm tb].
  unfold Home.accepted. unfold_state.
  destruct (Home.hasValidExtension toLowerCase (file_name f)) eqn:Hext;
    cbn [negb].
  - destruct (Home.maxSize <? file_size f) eqn:Hsize.
    + apply Z.ltb_lt in Hsize.
      split; [right|now (do 5 (split; [reflexivity|]))].
      split; [reflexivity|]. split; [discriminate|]. split; [reflexivity|].
      intros [_ H]. lia.
    + apply Z.ltb_ge in Hsize.
      split; [left|now (do 5 (split; [reflexivity|]))].
      split; [reflexivity|]. split; [reflexivity|]. split; [reflexivity|].
      split; [reflexivity|exact Hsize].
  - split; [right|now (do 5 (split; [reflexivity|]))].
    split; [reflexivity|]. split; [|split; [reflexivity|]].
    + unfold Home.invalidFormat. discriminate.
    + intros [H _]. discriminate H.
Qed.

(** X13: while a request of [handleAnalyze] is under way, the Analyze
    button is disabled, and the results and the error message of the
    run before are gone. *)
Theorem request_disables_button (st : Home.State Data) (r : Request) :
  snd (Home.analyzeStart st) = Some r ->
  Home.analyzeDisabled (fst (Home.analyzeStart st)) = true
  /\ Home.results (fst (Home.analyzeStart st)) = None
  /\ Home.error (fst (Home.analyzeStart st)) = [].
Proof.
  intros Hr.
  destruct (analyzeStart_state st) as (_ & _ & _ & _ & _ & Hres & Hreq).
  rewrite Hr in Hreq. destruct Hreq as [He Hl].
  unfold Home.analyzeDisabled. rewrite Hl. now split.
Qed.

End HomeProperties.

(** The first render, with its five accessions. *)
Lemma analyzeStart_wellFormed_witness :
  Home.wellFormed
    (PostAnalyze [js "P03314"; js "P17763"; js "P29991"; js "P27909";
                  js "P09866"] None None).
Proof.
  apply (analyzeStart_wellFormed unit (Home.initial unit)). reflexivity.
Defined.

(** A file is chosen whose extension is in upper case. *)
Lemma selectedFile_accepted_witness :
  Home.accepted asciiLower {| file_name := js "seqs.FA"; file_size := 100 |}.
Proof.
  apply (selectedFile_accepted unit asciiLower
           [Home.FileChange unit
              (Some {| file_name := js "seqs.FA"; file_size := 100 |})]).
  reflexivity.
Defined.

(** The FASTA tab is opened, and a file is chosen. *)
Lemma fasta_request_accepted_witness :
  exists f rest,
    Home.selectedFile
      (Home.after asciiLower
         [Home.SelectTab unit fasta;
          Home.FileChange unit
            (Some {| file_name := js "seqs.fasta.txt"; file_size := 2048 |})])
    = Some f
    /\ Home.accepted asciiLower f
    /\ snd (Home.analyzeStart
              (Home.after asciiLower
                 [Home.SelectTab unit fasta;
                  Home.FileChange unit
                    (Some {| file_name := js "seqs.fasta.txt";
                             file_size := 2048 |})]))
       = Some (PostAnalyzeFasta ((js "file", FileValue f) :: rest)).
Proof.
  apply (fasta_request_accepted unit asciiLower); reflexivity.
Defined.

(** The first click on the first render. *)
Lemma request_disables_button_witness :
  Home.analyzeDisabled (fst (Home.analyzeStart (Home.initial unit))) = true
  /\ Home.results (fst (Home.analyzeStart (Home.initial unit))) = None
  /\ Home.error (fst (Home.analyzeStart (Home.initial unit))) = [].
Proof.
  apply (request_disables_button unit (Home.initial unit)
           (PostAnalyze [js "P03314"; js "P17763"; js "P29991"; js "P27909";
                         js "P09866"] None None)).
  reflexivity.
Defined.
